(** * frfr: reduction of sequences of image flips and rotations

    A shallow embedding of [frfr.py].  The module rewrites a sequence of
    image transformations (flips and rotations by multiples of 90 degrees)
    into an equivalent sequence of at most two transformations.

    Python values are embedded as follows:
    - the enumeration [T] is an inductive type, [T.value] is [value];
    - tuples of transformations are lists;
    - a function that may return [None] returns a [pyval];
    - a function that may raise returns a [res], with the exception raised;
    - the set [ALL_EQ] is a list in the order of the source text, and the
      lookup is shown not to depend on that order;
    - the dictionary [BIJECTIVE_BASE_RICH_MAP] is an association list whose
      keys are shown to be distinct;
    - a PIL image is its size and its pixel at each position;
    - [reduce_base_form], [reduce] and the window of [gui] are the functions
      on a call stack without bound; [reduce_base_form_limited],
      [reduce_limited] and [gui_limited] are the same functions under the
      recursion limit of the interpreter, and agree with them whenever
      they do not end in [RecursionError]. *)

From Equations Require Import Equations.
From Stdlib Require Import String.
From Stdlib Require Import List Arith ZArith Bool Lia Permutation.
Import ListNotations.

(** ** Exceptions and results *)

Inductive exn : Type :=
| KeyError
| TypeError
| ValueError (msg : string)
| RecursionError.

Inductive res (A : Type) : Type :=
| Ok (a : A)
| Raise (e : exn).

Arguments Ok {A} a.
Arguments Raise {A} e.

Definition bind {A B : Type} (m : res A) (k : A -> res B) : res B :=
  match m with
  | Ok a => k a
  | Raise e => Raise e
  end.

Declare Scope res_scope.
Delimit Scope res_scope with res.
Notation "x <- m ;; k" := (bind m (fun x => k))
  (at level 61, m at next level, right associativity) : res_scope.
Local Open Scope res_scope.

(** ** The part of Pillow that [frfr.py] calls *)

Module PIL.

(** An image: [im.width], [im.height] and [im.getpixel((x, y))].  The column
    [x] grows to the right and the row [y] grows downwards.  The positions
    of the image are those with [0 <= x < width] and [0 <= y < height]. *)
Record Image : Type := mkImage {
  width : Z;
  height : Z;
  getpixel : Z -> Z -> Z
}.

Definition FLIP_LEFT_RIGHT : Z := 0.
Definition FLIP_TOP_BOTTOM : Z := 1.
Definition ROTATE_90 : Z := 2.
Definition ROTATE_180 : Z := 3.
Definition ROTATE_270 : Z := 4.
Definition TRANSPOSE : Z := 5.
Definition TRANSVERSE : Z := 6.

(** Modelled from the spec: Pillow's [Image.transpose(method)], a library
    function that is not part of the repository.  The flips and rotations
    are those that the comments of [T] and the data model of the
    specification name: [FLIP_LEFT_RIGHT] mirrors each row,
    [FLIP_TOP_BOTTOM] mirrors each column, [ROTATE_90] turns the image by
    90 degrees counterclockwise, [ROTATE_270] clockwise, and [ROTATE_180]
    by 180 degrees; a rotation by 90 degrees swaps width and height.  The
    call returns a new image and leaves [im] as it is.  A method that is
    not one of the constants is rejected with [ValueError]. *)
Definition transpose (method : Z) (im : Image) : res Image :=
  let w := width im in
  let h := height im in
  if (method =? FLIP_LEFT_RIGHT)%Z then
    Ok (mkImage w h (fun x y => getpixel im (w - 1 - x) y))
  else if (method =? FLIP_TOP_BOTTOM)%Z then
    Ok (mkImage w h (fun x y => getpixel im x (h - 1 - y)))
  else if (method =? ROTATE_90)%Z then
    Ok (mkImage h w (fun x y => getpixel im (w - 1 - y) x))
  else if (method =? ROTATE_180)%Z then
    Ok (mkImage w h (fun x y => getpixel im (w - 1 - x) (h - 1 - y)))
  else if (method =? ROTATE_270)%Z then
    Ok (mkImage h w (fun x y => getpixel im y (h - 1 - x)))
  else if (method =? TRANSPOSE)%Z then
    Ok (mkImage h w (fun x y => getpixel im y x))
  else if (method =? TRANSVERSE)%Z then
    Ok (mkImage h w (fun x y => getpixel im (w - 1 - y) (h - 1 - x)))
  else
    Raise (ValueError "Unknown transposition method").

(** The positions [0 .. n-1] of a row or of a column. *)
Definition positions (n : Z) : list Z :=
  map Z.of_nat (seq 0 (Z.to_nat n)).

(** Modelled from the spec: Pillow's
    [ImageChops.difference(a, b).getbbox() is None], the pixel-exact
    comparison of two images.  The difference is taken over the region that
    the two images have in common, and its bounding box is [None] when no
    pixel of it is nonzero. *)
Definition difference_is_empty (a b : Image) : bool :=
  forallb
    (fun y =>
       forallb (fun x => (getpixel a x y =? getpixel b x y)%Z)
               (positions (Z.min (width a) (width b))))
    (positions (Z.min (height a) (height b))).

End PIL.

(** ** Image transformations *)

Inductive T : Type :=
| FLIP_LEFT_RIGHT
| FLIP_TOP_BOTTOM
| ROTATE_LEFT
| ROTATE_180
| ROTATE_RIGHT.

Definition value (t : T) : Z :=
  match t with
  | FLIP_LEFT_RIGHT => 0
  | FLIP_TOP_BOTTOM => 1
  | ROTATE_LEFT => 2
  | ROTATE_180 => 3
  | ROTATE_RIGHT => 4
  end.

Definition T_eq_dec (a b : T) : {a = b} + {a <> b}.
Proof. decide equality. Defined.

(** A tuple of transformations. *)
Definition tuple : Type := list T.

Definition tuple_eq_dec : forall a b : tuple, {a = b} + {a <> b} :=
  list_eq_dec T_eq_dec.

(** The Python values that flow between the functions of the module. *)
Inductive pyval : Type :=
| VNone
| VStr (s : string)
| VTuple (t : tuple).

(** [a + b]: concatenation of two strings or of two tuples, [TypeError] for
    every other pair of operands. *)
Definition add (a b : pyval) : res pyval :=
  match a, b with
  | VStr x, VStr y => Ok (VStr (x ++ y))
  | VTuple x, VTuple y => Ok (VTuple (x ++ y))
  | _, _ => Raise TypeError
  end.

(** ** Base transformations and equivalence classes *)

Definition f : T := FLIP_TOP_BOTTOM.
Definition r : T := ROTATE_RIGHT.

Definition R : list tuple := [[r]; [f; f; r]; [r; f; f]].
Definition F : list tuple := [[f]; [f; f; f]; [r; f; r]].
Definition RR : list tuple :=
  [[r; r]; [r; r; f; f]; [f; f; r; r]; [f; r; r; f]; [r; f; f; r]].
Definition ID : list tuple :=
  [[]; [f; f]; [r; r; r; r]; [f; f; f; f]; [r; f; r; f]; [f; r; f; r]].
Definition FF : list tuple := ID.
Definition RF : list tuple :=
  [[r; f]; [r; r; f; r]; [f; r; r; r]; [r; f; f; f]; [f; f; r; f]].
Definition FR : list tuple :=
  [[f; r]; [r; r; r; f]; [r; f; r; r]; [f; r; f; f]; [f; f; f; r]].
Definition RRR : list tuple := [[r; r; r]; [f; r; f]].
Definition FRR : list tuple := [[f; r; r]; [r; r; f]].

(** The set of all equivalence classes, listed as the source writes it. *)
Definition ALL_EQ : list (list tuple) := [R; F; RR; FF; RF; FR; RRR; FRR].

Definition BIJECTIVE_BASE_RICH_MAP : list (tuple * tuple) :=
  [ ([ROTATE_RIGHT], [ROTATE_RIGHT]);
    ([FLIP_TOP_BOTTOM], [FLIP_TOP_BOTTOM]);
    ([ROTATE_RIGHT; ROTATE_RIGHT], [ROTATE_180]);
    ([ROTATE_180], [ROTATE_RIGHT; ROTATE_RIGHT]);
    ([], []);
    ([ROTATE_RIGHT; FLIP_TOP_BOTTOM], [ROTATE_RIGHT; FLIP_TOP_BOTTOM]);
    ([FLIP_TOP_BOTTOM; ROTATE_RIGHT], [FLIP_TOP_BOTTOM; ROTATE_RIGHT]);
    ([ROTATE_RIGHT; ROTATE_RIGHT; ROTATE_RIGHT], [ROTATE_LEFT]);
    ([ROTATE_LEFT], [ROTATE_RIGHT; ROTATE_RIGHT; ROTATE_RIGHT]);
    ([FLIP_TOP_BOTTOM; ROTATE_RIGHT; ROTATE_RIGHT], [FLIP_LEFT_RIGHT]);
    ([FLIP_LEFT_RIGHT], [FLIP_TOP_BOTTOM; ROTATE_RIGHT; ROTATE_RIGHT]) ].

(** [d.get(k)] on an association list: the entry of the first equal key. *)
Fixpoint assoc (d : list (tuple * tuple)) (k : tuple) : option tuple :=
  match d with
  | [] => None
  | (k', v) :: rest => if tuple_eq_dec k k' then Some v else assoc rest k
  end.

(** [d[k]]: [KeyError] when [k] is not a key.  [None] and strings are
    hashable and equal to no tuple, so they are never found. *)
Definition getitem (d : list (tuple * tuple)) (k : pyval) : res tuple :=
  match k with
  | VTuple t =>
      match assoc d t with
      | Some v => Ok v
      | None => Raise KeyError
      end
  | _ => Raise KeyError
  end.

(** ** Reduction of base forms *)

(** The loop of [representative] over a collection of classes: the first
    member [EQ[0]] of the first class that contains the sequence.  The
    sequence is a member of that class, so [EQ[0]] exists.  When the loop
    ends without a match the Python function returns [None]. *)
Fixpoint representative_in (classes : list (list tuple))
         (transformation_sequence : tuple) : pyval :=
  match classes with
  | [] => VNone
  | EQ :: rest =>
      if in_dec tuple_eq_dec transformation_sequence EQ
      then VTuple (hd [] EQ)
      else representative_in rest transformation_sequence
  end.

Definition representative (transformation_sequence : tuple) : pyval :=
  representative_in ALL_EQ transformation_sequence.

Definition inspect {A : Type} (a : A) : {b : A | a = b} := exist _ a eq_refl.

(** [reduce_base_form], together with the table lookups it performs, in the
    order in which it performs them.  The recursive call is on
    [representative(s[:4]) + s[4:]]; when the lookup returned [None] the
    concatenation raises [TypeError].  The recursion is on the length of
    the sequence. *)
Equations? reduce_base_form_log (transformation_sequence : tuple)
  : list tuple * res pyval
  by wf (length transformation_sequence) lt :=
  reduce_base_form_log s with le_lt_dec 5 (length s) := {
    | right _ => ([s], Ok (representative s))
    | left _ with inspect (representative (firstn 4 s)) := {
        | exist _ (VTuple rep) _ =>
            let rec := reduce_base_form_log (rep ++ skipn 4 s) in
            (firstn 4 s :: fst rec, snd rec)
        | exist _ _ _ => ([firstn 4 s], Raise TypeError)
      }
  }.
Proof.
  assert (Hrep : length rep <= 3).
  { unfold representative, ALL_EQ in e. cbn [representative_in] in e.
    repeat match type of e with
           | context [in_dec ?d ?x ?l] => destruct (in_dec d x l)
           end; inversion e; simpl; lia. }
  destruct s as [|? [|? [|? [|? s]]]]; simpl in *; try lia.
  rewrite length_app. lia.
Qed.

Definition reduce_base_form (transformation_sequence : tuple) : res pyval :=
  snd (reduce_base_form_log transformation_sequence).

(** The table lookups of one call of [reduce_base_form]. *)
Definition lookups (transformation_sequence : tuple) : list tuple :=
  fst (reduce_base_form_log transformation_sequence).

(** ** Rich forms and base forms *)

(** The loop of [rewrite_to_base_form], with the list [base_form] that it
    extends. *)
Fixpoint rewrite_to_base_form_loop (base_form : tuple)
         (rich_transformation_sequence : tuple) : res tuple :=
  match rich_transformation_sequence with
  | [] => Ok base_form
  | transformation :: rest =>
      expansion <- getitem BIJECTIVE_BASE_RICH_MAP (VTuple [transformation]) ;;
      rewrite_to_base_form_loop (base_form ++ expansion) rest
  end.

Definition rewrite_to_base_form (rich_transformation_sequence : tuple)
  : res tuple :=
  rewrite_to_base_form_loop [] rich_transformation_sequence.

(** The lookup fails with [KeyError]; the handler then builds the message of
    the [ValueError] by adding the sequence to a string. *)
Definition rewrite_to_rich_form (reduced_base_transformation_sequence : pyval)
  : res tuple :=
  match getitem BIJECTIVE_BASE_RICH_MAP reduced_base_transformation_sequence with
  | Ok rich => Ok rich
  | Raise KeyError =>
      msg <- add (VStr "The given sequence is not a reduced base transformation sequence:")
                 reduced_base_transformation_sequence ;;
      match msg with
      | VStr m => Raise (ValueError m)
      | _ => Raise TypeError
      end
  | Raise e => Raise e
  end.

Definition reduce (transformation_sequence : tuple) : res tuple :=
  base_form <- rewrite_to_base_form transformation_sequence ;;
  reduced <- reduce_base_form base_form ;;
  rewrite_to_rich_form reduced.

(** ** Images *)

Definition same (image1 image2 : PIL.Image) : bool :=
  PIL.difference_is_empty image1 image2.

Fixpoint apply (transformation_sequence : tuple) (image : PIL.Image)
  : res PIL.Image :=
  match transformation_sequence with
  | [] => Ok image
  | op :: rest =>
      image' <- PIL.transpose (value op) image ;;
      apply rest image'
  end.

(** Two images are the same image when they have the same size and the same
    pixel at every position. *)
Definition image_eq (a b : PIL.Image) : Prop :=
  PIL.width a = PIL.width b /\
  PIL.height a = PIL.height b /\
  forall x y : Z,
    (0 <= x < PIL.width a)%Z -> (0 <= y < PIL.height a)%Z ->
    PIL.getpixel a x y = PIL.getpixel b x y.

(** The generators of the base form. *)
Definition is_base (t : T) : Prop := t = f \/ t = r.

(** The reduced base forms: the representatives of the eight classes. *)
Definition canonical_forms : list tuple := map (hd []) ALL_EQ.

(** The effect of one transformation on an image: the image that
    [image.transpose(op.value)] returns. *)
Definition transposed (op : T) (image : PIL.Image) : PIL.Image :=
  let w := PIL.width image in
  let h := PIL.height image in
  match op with
  | FLIP_LEFT_RIGHT =>
      PIL.mkImage w h (fun x y => PIL.getpixel image (w - 1 - x) y)
  | FLIP_TOP_BOTTOM =>
      PIL.mkImage w h (fun x y => PIL.getpixel image x (h - 1 - y))
  | ROTATE_LEFT =>
      PIL.mkImage h w (fun x y => PIL.getpixel image (w - 1 - y) x)
  | ROTATE_180 =>
      PIL.mkImage w h (fun x y => PIL.getpixel image (w - 1 - x) (h - 1 - y))
  | ROTATE_RIGHT =>
      PIL.mkImage h w (fun x y => PIL.getpixel image y (h - 1 - x))
  end%Z.

(** The image that [apply] returns. *)
Definition applied (transformation_sequence : tuple) (image : PIL.Image)
  : PIL.Image :=
  fold_left (fun im op => transposed op im) transformation_sequence image.

(** Two descriptions of an image agree when the sizes are equal and the
    pixel functions are equal at every argument. *)
Definition agree (a b : PIL.Image) : Prop :=
  PIL.width a = PIL.width b /\
  PIL.height a = PIL.height b /\
  forall x y : Z, PIL.getpixel a x y = PIL.getpixel b x y.

(** The entry of [BIJECTIVE_BASE_RICH_MAP] for the one-element tuple of a
    transformation. *)
Definition expansion (t : T) : tuple :=
  match t with
  | ROTATE_RIGHT => [r]
  | FLIP_TOP_BOTTOM => [f]
  | ROTATE_180 => [r; r]
  | ROTATE_LEFT => [r; r; r]
  | FLIP_LEFT_RIGHT => [f; r; r]
  end.

(** Two sequences are equivalent when they transform every image into the
    same image. *)
Definition equivalent (s1 s2 : tuple) : Prop :=
  forall image : PIL.Image,
  exists a b : PIL.Image,
    apply s1 image = Ok a /\ apply s2 image = Ok b /\ image_eq a b.

(** The rich forms that the dictionary holds for the reduced base forms. *)
Definition reduced_forms : list tuple :=
  [[ROTATE_RIGHT]; [FLIP_TOP_BOTTOM]; [ROTATE_180]; [];
   [ROTATE_RIGHT; FLIP_TOP_BOTTOM]; [FLIP_TOP_BOTTOM; ROTATE_RIGHT];
   [ROTATE_LEFT]; [FLIP_LEFT_RIGHT]].

(** An image of two rows and two columns whose four pixels differ. *)
Definition probe : PIL.Image :=
  PIL.mkImage 2 2 (fun x y => x + 2 * y)%Z.

(** The transformations that turn the image by 90 degrees. *)
Definition quarter_turn (t : T) : bool :=
  match t with
  | ROTATE_LEFT | ROTATE_RIGHT => true
  | _ => false
  end.

(** The number of quarter turns of a sequence is odd. *)
Definition odd_turns (s : tuple) : bool :=
  Nat.odd (length (filter quarter_turn s)).

(** ** The recursion limit *)

(** CPython raises [RecursionError] when the nesting of calls exceeds
    [sys.getrecursionlimit()], which is 1000 unless a program changes it;
    neither module changes it. *)
Definition default_recursion_limit : nat := 1000.

(** [reduce_base_form] where the recursion limit leaves room for [frames]
    nested calls of the function: the limit, less the frames of the callers
    and the frame of [representative].  One more nested call raises
    [RecursionError]. *)
Fixpoint reduce_base_form_limited (frames : nat)
         (transformation_sequence : tuple) : res pyval :=
  match frames with
  | 0 => Raise RecursionError
  | S frames' =>
      if length transformation_sequence <? 5
      then Ok (representative transformation_sequence)
      else
        next <- add (representative (firstn 4 transformation_sequence))
                    (VTuple (skipn 4 transformation_sequence)) ;;
        match next with
        | VTuple t => reduce_base_form_limited frames' t
        | _ => Raise TypeError
        end
  end.

(** [reduce] under the same limit. *)
Definition reduce_limited (frames : nat) (transformation_sequence : tuple)
  : res tuple :=
  base_form <- rewrite_to_base_form transformation_sequence ;;
  reduced <- reduce_base_form_limited frames base_form ;;
  rewrite_to_rich_form reduced.

(** ** The window of [gui.py] *)

(** [t.name]. *)
Definition name (t : T) : string :=
  match t with
  | FLIP_LEFT_RIGHT => "FLIP_LEFT_RIGHT"
  | FLIP_TOP_BOTTOM => "FLIP_TOP_BOTTOM"
  | ROTATE_LEFT => "ROTATE_LEFT"
  | ROTATE_180 => "ROTATE_180"
  | ROTATE_RIGHT => "ROTATE_RIGHT"
  end.

(** [T[n]]: the member of that name, [KeyError] when there is none. *)
Definition T_getitem (n : string) : res T :=
  if String.eqb n "FLIP_LEFT_RIGHT" then Ok FLIP_LEFT_RIGHT
  else if String.eqb n "FLIP_TOP_BOTTOM" then Ok FLIP_TOP_BOTTOM
  else if String.eqb n "ROTATE_LEFT" then Ok ROTATE_LEFT
  else if String.eqb n "ROTATE_180" then Ok ROTATE_180
  else if String.eqb n "ROTATE_RIGHT" then Ok ROTATE_RIGHT
  else Raise KeyError.

(** [T[n] for n in names], from left to right. *)
Fixpoint members (names : list string) : res tuple :=
  match names with
  | [] => Ok []
  | n :: rest =>
      t <- T_getitem n ;;
      ts <- members rest ;;
      Ok (t :: ts)
  end.

Module gui.

(** What the window shows: the entries of the two list boxes, which are the
    values of their list variables, and the images of the two labels. *)
Record window : Type := mkWindow {
  all_trans : list string;
  reduced_trans : list string;
  all_image_widget : PIL.Image;
  reduced_image_widget : PIL.Image
}.

Definition set_all_image (image : PIL.Image) (w : window) : window :=
  mkWindow (all_trans w) (reduced_trans w) image (reduced_image_widget w).

Definition set_reduced_image (image : PIL.Image) (w : window) : window :=
  mkWindow (all_trans w) (reduced_trans w) (all_image_widget w) image.

Section Window.

(** The image that the module loads when it starts. *)
Variable original_image : PIL.Image.

(** The window when the main loop starts. *)
Definition initial : window :=
  mkWindow [] [] original_image original_image.

(** [apply_transformations(trans, image_widget)]: [set_image] stores the
    transformed image in the label. *)
Definition apply_transformations (trans : list string)
           (set_image : PIL.Image -> window -> window) (w : window)
  : res window :=
  trans_sequence <- members trans ;;
  transformed_image <- apply trans_sequence original_image ;;
  Ok (set_image transformed_image w).

(** [add_transformation(transformation)]: the name is inserted at the end of
    the first list box, the second list box gets a new list variable, and the
    two labels get their images. *)
Definition add_transformation (transformation : T) (w : window)
  : res window :=
  let w1 := mkWindow (all_trans w ++ [name transformation]) (reduced_trans w)
                     (all_image_widget w) (reduced_image_widget w) in
  all_trans_sequence <- members (all_trans w1) ;;
  reduced <- reduce all_trans_sequence ;;
  let updated_reduced_trans := map name reduced in
  let w2 := mkWindow (all_trans w1) updated_reduced_trans
                     (all_image_widget w1) (reduced_image_widget w1) in
  w3 <- apply_transformations (all_trans w2) set_all_image w2 ;;
  apply_transformations updated_reduced_trans set_reduced_image w3.

(** [reset_transformations(keypress=None)]. *)
Definition reset_transformations (w : window) : window :=
  mkWindow [] [] original_image original_image.

(** The buttons of the window and the key that is bound. *)
Inductive event : Type :=
| RotateLeftButton
| RotateRightButton
| FlipTopBottomButton
| FlipLeftRightButton
| ResetButton
| EscapeKey.

(** The command of a button, or the binding of the key. *)
Definition command (e : event) (w : window) : res window :=
  match e with
  | RotateLeftButton => add_transformation ROTATE_LEFT w
  | RotateRightButton => add_transformation ROTATE_RIGHT w
  | FlipTopBottomButton => add_transformation FLIP_TOP_BOTTOM w
  | FlipLeftRightButton => add_transformation FLIP_LEFT_RIGHT w
  | ResetButton => Ok (reset_transformations w)
  | EscapeKey => Ok (reset_transformations w)
  end.

(** The main loop, on the events of a session. *)
Fixpoint mainloop (events : list event) (w : window) : res window :=
  match events with
  | [] => Ok w
  | e :: rest => w' <- command e w ;; mainloop rest w'
  end.

End Window.

(** The transformations pressed since the last reset. *)
Fixpoint pressed_from (acc : tuple) (events : list event) : tuple :=
  match events with
  | [] => acc
  | RotateLeftButton :: rest => pressed_from (acc ++ [ROTATE_LEFT]) rest
  | RotateRightButton :: rest => pressed_from (acc ++ [ROTATE_RIGHT]) rest
  | FlipTopBottomButton :: rest => pressed_from (acc ++ [FLIP_TOP_BOTTOM]) rest
  | FlipLeftRightButton :: rest => pressed_from (acc ++ [FLIP_LEFT_RIGHT]) rest
  | ResetButton :: rest => pressed_from [] rest
  | EscapeKey :: rest => pressed_from [] rest
  end.

Definition pressed (events : list event) : tuple := pressed_from [] events.

End gui.

(** ** The window under the recursion limit *)

Module gui_limited.

Section Window.

Variable original_image : PIL.Image.

(** The nested calls of [reduce_base_form] that the recursion limit leaves
    room for inside a command of the window. *)
Variable frames : nat.

(** [add_transformation(transformation)].  Tk reports an exception that a
    command raises and the main loop goes on, so a command returns the
    window as the exception left it, with the exception: the name is in the
    first list box before [reduce] is called. *)
Definition add_transformation (transformation : T) (w : gui.window)
  : gui.window * option exn :=
  let w1 := gui.mkWindow (gui.all_trans w ++ [name transformation])
                         (gui.reduced_trans w)
                         (gui.all_image_widget w)
                         (gui.reduced_image_widget w) in
  match members (gui.all_trans w1) with
  | Raise e => (w1, Some e)
  | Ok all_trans_sequence =>
      match reduce_limited frames all_trans_sequence with
      | Raise e => (w1, Some e)
      | Ok reduced =>
          let updated_reduced_trans := map name reduced in
          let w2 := gui.mkWindow (gui.all_trans w1) updated_reduced_trans
                                 (gui.all_image_widget w1)
                                 (gui.reduced_image_widget w1) in
          match gui.apply_transformations original_image (gui.all_trans w2)
                                          gui.set_all_image w2 with
          | Raise e => (w2, Some e)
          | Ok w3 =>
              match gui.apply_transformations original_image
                                              updated_reduced_trans
                                              gui.set_reduced_image w3 with
              | Raise e => (w3, Some e)
              | Ok w4 => (w4, None)
              end
          end
      end
  end.

(** The command of a button, or the binding of the key. *)
Definition command (e : gui.event) (w : gui.window)
  : gui.window * option exn :=
  match e with
  | gui.RotateLeftButton => add_transformation ROTATE_LEFT w
  | gui.RotateRightButton => add_transformation ROTATE_RIGHT w
  | gui.FlipTopBottomButton => add_transformation FLIP_TOP_BOTTOM w
  | gui.FlipLeftRightButton => add_transformation FLIP_LEFT_RIGHT w
  | gui.ResetButton => (gui.reset_transformations original_image w, None)
  | gui.EscapeKey => (gui.reset_transformations original_image w, None)
  end.

(** The main loop, on the events of a session: the window at the end, and
    the exceptions that Tk reported. *)
Fixpoint mainloop (events : list gui.event) (w : gui.window)
  : gui.window * list exn :=
  match events with
  | [] => (w, [])
  | e :: rest =>
      let (w', raised) := command e w in
      let (w'', reported) := mainloop rest w' in
      (w'', match raised with
            | Some x => x :: reported
            | None => reported
            end)
  end.

End Window.

(** The greatest number of transformations in the first list box during a
    session that starts with the sequence [acc] in it. *)
Fixpoint longest_from (acc : tuple) (events : list gui.event) : nat :=
  match events with
  | [] => length acc
  | e :: rest =>
      Nat.max (length acc) (longest_from (gui.pressed_from acc [e]) rest)
  end.

Definition longest (events : list gui.event) : nat := longest_from [] events.

End gui_limited.

(** What holds of the window between two events, for the sequence [s] of the
    transformations pressed since the last reset. *)
Definition consistent (original_image : PIL.Image) (s : tuple)
           (w : gui.window) : Prop :=
  exists out : tuple,
    reduce s = Ok out /\
    gui.all_trans w = map name s /\
    gui.reduced_trans w = map name out /\
    gui.all_image_widget w = applied s original_image /\
    gui.reduced_image_widget w = applied out original_image.

(** * Properties *)

(** ** The result monad *)

Lemma bind_Ok_inv (A B : Type) (m : res A) (k : A -> res B) (b : B) :
  bind m k = Ok b -> exists a, m = Ok a /\ k a = Ok b.
Proof.
  destruct m as [a|e]; simpl; [|discriminate].
  intros H. exists a. split; [reflexivity|exact H].
Qed.

(** ** The equivalence classes *)

Section Classes.

Variable classes : list (list tuple).

Lemma representative_in_inv (s rep : tuple) :
  representative_in classes s = VTuple rep ->
  exists EQ, In EQ classes /\ In s EQ /\ rep = hd [] EQ.
Proof.
  induction classes as [|EQ rest IH]; simpl; [discriminate|].
  destruct (in_dec tuple_eq_dec s EQ) as [Hin|Hout].
  - intros [= <-]. exists EQ. auto.
  - intros H. destruct (IH H) as (EQ' & ? & ? & ?). exists EQ'. auto.
Qed.

Lemma representative_in_member (s : tuple) (EQ : list tuple) :
  In EQ classes -> In s EQ ->
  exists rep, representative_in classes s = VTuple rep.
Proof.
  induction classes as [|EQ' rest IH]; simpl; [tauto|].
  intros HEQ Hs.
  destruct (in_dec tuple_eq_dec s EQ') as [Hin|Hout]; [eauto|].
  destruct HEQ as [->|HEQ]; [contradiction|]. auto.
Qed.

Lemma representative_in_None (s : tuple) :
  representative_in classes s = VNone <->
  forall EQ, In EQ classes -> ~ In s EQ.
Proof.
  induction classes as [|EQ' rest IH]; simpl.
  - split; [intros _ EQ []|reflexivity].
  - destruct (in_dec tuple_eq_dec s EQ') as [Hin|Hout].
    + split; [discriminate|]. intros H. exfalso. apply (H EQ'); auto.
    + rewrite IH. split.
      * intros H EQ [<-|HEQ]; auto.
      * intros H EQ HEQ. apply H. auto.
Qed.

(** The lookup returns [None] or a tuple, never a string. *)
Lemma representative_in_not_str (s : tuple) (m : string) :
  representative_in classes s <> VStr m.
Proof.
  induction classes as [|EQ' rest IH]; simpl; [discriminate|].
  destruct (in_dec tuple_eq_dec s EQ'); [discriminate|exact IH].
Qed.

End Classes.

(** A sequence lies in at most one class of a collection whose classes share
    no sequence. *)
Lemma disjoint_classes_unique (classes : list (list tuple)) :
  NoDup (concat classes) ->
  forall (EQ1 EQ2 : list tuple) (s : tuple),
    In EQ1 classes -> In EQ2 classes -> In s EQ1 -> In s EQ2 -> EQ1 = EQ2.
Proof.
  induction classes as [|EQ rest IH]; simpl; [tauto|].
  intros Hnd EQ1 EQ2 s H1 H2 Hs1 Hs2.
  assert (Hsplit : forall x, In x EQ -> ~ In x (concat rest)).
  { intros x Hx Hc. revert Hnd Hx Hc. clear. induction EQ as [|y EQ IHq]; simpl.
    - tauto.
    - intros Hnd [->|Hx] Hc.
      + inversion Hnd as [|? ? Hn _]; subst. apply Hn, in_or_app. auto.
      + inversion Hnd; subst. auto. }
  assert (Hrest : NoDup (concat rest)).
  { revert Hnd. clear. induction EQ as [|y EQ IHq]; simpl; [tauto|].
    intros Hnd. inversion Hnd; auto. }
  assert (Hin : forall E x, In E rest -> In x E -> In x (concat rest)).
  { intros E x HE Hx. apply in_concat. eauto. }
  destruct H1 as [<-|H1], H2 as [<-|H2]; try reflexivity.
  - exfalso. eapply Hsplit; eauto.
  - exfalso. eapply Hsplit; eauto.
  - eapply IH; eauto.
Qed.

(** No sequence occurs in two classes or twice in a class: the first check
    that the module runs on its table. *)
Lemma ALL_EQ_NoDup : NoDup (concat ALL_EQ).
Proof.
  apply (NoDup_count_occ' tuple_eq_dec). intros x Hx.
  simpl in Hx.
  repeat (destruct Hx as [<-|Hx]; [vm_compute; reflexivity|]).
  destruct Hx.
Qed.

(** The classes hold as many sequences as there are sequences of [f] and [r]
    of length 0 to 4: the second check of the module. *)
Lemma ALL_EQ_count :
  length (concat ALL_EQ) = 2 ^ 0 + 2 ^ 1 + 2 ^ 2 + 2 ^ 3 + 2 ^ 4.
Proof. reflexivity. Qed.

(** [ALL_EQ] is a Python set, whose iteration order is not fixed.  The
    lookup gives the same answer for every order. *)
Lemma representative_any_order (classes : list (list tuple)) (s : tuple) :
  Permutation classes ALL_EQ ->
  representative_in classes s = representative s.
Proof.
  intros Hp. unfold representative.
  destruct (representative_in ALL_EQ s) as [| m |rep] eqn:E.
  - rewrite representative_in_None in E. rewrite representative_in_None.
    intros EQ HEQ. apply E. eapply Permutation_in; eauto.
  - exfalso. eapply representative_in_not_str; eauto.
  - destruct (representative_in_inv _ _ _ E) as (EQ & HEQ & Hs & ->).
    destruct (representative_in_member classes s EQ) as [rep' E']; auto.
    { eapply Permutation_in; [apply Permutation_sym|]; eauto. }
    rewrite E'.
    destruct (representative_in_inv _ _ _ E') as (EQ' & HEQ' & Hs' & ->).
    f_equal. f_equal.
    apply (disjoint_classes_unique ALL_EQ ALL_EQ_NoDup) with (s := s); auto.
    eapply Permutation_in; eauto.
Qed.

(** Every representative is at most three transformations long. *)
Lemma representatives_short : Forall (fun EQ => length (hd [] EQ) <= 3) ALL_EQ.
Proof. repeat constructor. Qed.

Lemma representative_length (s rep : tuple) :
  representative s = VTuple rep -> length rep <= 3.
Proof.
  intros H. destruct (representative_in_inv _ _ _ H) as (EQ & HEQ & _ & ->).
  pose proof representatives_short as Hs. rewrite Forall_forall in Hs. auto.
Qed.

(** Every member of a class is at most four transformations long, so the
    lookup of a longer sequence finds no class. *)
Lemma members_short :
  Forall (fun EQ => Forall (fun s : tuple => length s <= 4) EQ) ALL_EQ.
Proof. repeat constructor. Qed.

(** Every member of a class consists of [f] and [r]. *)
Lemma members_base :
  Forall (fun EQ => Forall (fun s : tuple => Forall is_base s) EQ) ALL_EQ.
Proof.
  repeat (apply Forall_cons || apply Forall_nil);
    solve [left; reflexivity | right; reflexivity].
Qed.

(** A sequence is in the table exactly when it consists of [f] and [r] and
    is at most four transformations long. *)
Lemma table_complete (s : tuple) :
  Forall is_base s -> length s <= 4 -> In s (concat ALL_EQ).
Proof.
  intros Hb Hlen.
  destruct s as [|a [|b [|c [|d [|e s]]]]]; simpl in Hlen; try lia;
    repeat match goal with
           | H : Forall _ (_ :: _) |- _ => inversion H; clear H; subst
           | H : is_base _ |- _ => destruct H as [->| ->]
           end;
    match goal with
    | |- In ?x ?l =>
        let E := fresh "E" in
        let Hin := fresh "Hin" in
        destruct (in_dec tuple_eq_dec x l) as [Hin|Hin] eqn:E;
          [exact Hin|vm_compute in E; discriminate E]
    end.
Qed.

Lemma table_sound (s : tuple) :
  In s (concat ALL_EQ) -> Forall is_base s /\ length s <= 4.
Proof.
  intros H. apply in_concat in H. destruct H as (EQ & HEQ & Hs).
  pose proof members_short as Hl. pose proof members_base as Hb.
  rewrite Forall_forall in Hl, Hb.
  specialize (Hl _ HEQ). specialize (Hb _ HEQ).
  rewrite Forall_forall in Hl, Hb. auto.
Qed.

(** The lookup of a sequence of the table finds its class; the
    representative is a member of the class and a reduced base form. *)
Lemma representative_found (s : tuple) :
  Forall is_base s -> length s <= 4 ->
  exists EQ, In EQ ALL_EQ /\ In s EQ /\
             representative s = VTuple (hd [] EQ) /\
             In (hd [] EQ) canonical_forms /\ Forall is_base (hd [] EQ).
Proof.
  intros Hb Hlen.
  pose proof (table_complete s Hb Hlen) as Hin.
  apply in_concat in Hin. destruct Hin as (EQ & HEQ & Hs).
  destruct (representative_in_member ALL_EQ s EQ HEQ Hs) as [rep E].
  destruct (representative_in_inv _ _ _ E) as (EQ' & HEQ' & Hs' & ->).
  exists EQ'. repeat split; auto.
  - unfold canonical_forms. apply in_map. exact HEQ'.
  - pose proof members_base as Hm. rewrite Forall_forall in Hm.
    specialize (Hm _ HEQ'). rewrite Forall_forall in Hm. apply Hm.
    destruct EQ' as [|x EQ']; [destruct Hs'|]. simpl. auto.
Qed.

(** The lookup of a sequence outside the table returns [None]. *)
Lemma representative_not_found (s : tuple) :
  ~ In s (concat ALL_EQ) -> representative s = VNone.
Proof.
  intros H. apply representative_in_None. intros EQ HEQ Hs.
  apply H, in_concat. eauto.
Qed.

(** ** The recursion of [reduce_base_form] *)

Lemma reduce_base_form_log_short (s : tuple) :
  length s < 5 -> reduce_base_form_log s = ([s], Ok (representative s)).
Proof.
  intros H. funelim (reduce_base_form_log s); try lia. reflexivity.
Qed.

Lemma reduce_base_form_log_step (s rep : tuple) :
  5 <= length s -> representative (firstn 4 s) = VTuple rep ->
  reduce_base_form_log s =
  (firstn 4 s :: lookups (rep ++ skipn 4 s),
   reduce_base_form (rep ++ skipn 4 s)).
Proof.
  intros H E. funelim (reduce_base_form_log s); try lia; try congruence.
  match goal with
  | E1 : representative ?q = VTuple ?a, E2 : representative ?q = VTuple ?b
    |- _ => assert (a = b) by congruence; subst
  end.
  reflexivity.
Qed.

Lemma reduce_base_form_log_none (s : tuple) :
  5 <= length s -> representative (firstn 4 s) = VNone ->
  reduce_base_form_log s = ([firstn 4 s], Raise TypeError).
Proof.
  intros H E. funelim (reduce_base_form_log s); try lia; congruence.
Qed.

(** The equations of [reduce_base_form], as the source reads. *)
Lemma reduce_base_form_short (s : tuple) :
  length s < 5 -> reduce_base_form s = Ok (representative s).
Proof.
  intros H. unfold reduce_base_form.
  rewrite reduce_base_form_log_short by exact H. reflexivity.
Qed.

Lemma reduce_base_form_step (s rep : tuple) :
  5 <= length s -> representative (firstn 4 s) = VTuple rep ->
  reduce_base_form s = reduce_base_form (rep ++ skipn 4 s).
Proof.
  intros H E. unfold reduce_base_form at 1.
  rewrite (reduce_base_form_log_step s rep H E). reflexivity.
Qed.

Lemma reduce_base_form_none (s : tuple) :
  5 <= length s -> representative (firstn 4 s) = VNone ->
  reduce_base_form s = Raise TypeError.
Proof.
  intros H E. unfold reduce_base_form.
  rewrite reduce_base_form_log_none by assumption. reflexivity.
Qed.

(** The body of [reduce_base_form], with the concatenation written as the
    source writes it. *)
Lemma reduce_base_form_unfold (s : tuple) :
  reduce_base_form s =
  if length s <? 5 then Ok (representative s)
  else
    next <- add (representative (firstn 4 s)) (VTuple (skipn 4 s)) ;;
    match next with
    | VTuple t => reduce_base_form t
    | _ => Raise TypeError
    end.
Proof.
  destruct (Nat.ltb_spec (length s) 5) as [Hshort|Hlong].
  - apply reduce_base_form_short, Hshort.
  - destruct (representative (firstn 4 s)) as [| m |rep] eqn:E.
    + apply reduce_base_form_none; assumption.
    + exfalso. eapply representative_in_not_str. exact E.
    + apply reduce_base_form_step; assumption.
Qed.

Lemma lookups_short (s : tuple) : length s < 5 -> lookups s = [s].
Proof.
  intros H. unfold lookups.
  rewrite reduce_base_form_log_short by exact H. reflexivity.
Qed.

Lemma lookups_step (s rep : tuple) :
  5 <= length s -> representative (firstn 4 s) = VTuple rep ->
  lookups s = firstn 4 s :: lookups (rep ++ skipn 4 s).
Proof.
  intros H E. unfold lookups at 1.
  rewrite (reduce_base_form_log_step s rep H E). reflexivity.
Qed.

Lemma lookups_none (s : tuple) :
  5 <= length s -> representative (firstn 4 s) = VNone ->
  lookups s = [firstn 4 s].
Proof.
  intros H E. unfold lookups.
  rewrite reduce_base_form_log_none by assumption. reflexivity.
Qed.

(** The argument of the recursive call is shorter than the sequence. *)
Lemma recursive_call_shorter (s rep : tuple) :
  5 <= length s -> representative (firstn 4 s) = VTuple rep ->
  length (rep ++ skipn 4 s) < length s.
Proof.
  intros H E. apply representative_length in E.
  rewrite length_app, length_skipn. lia.
Qed.

(** Induction on the length of a sequence. *)
Lemma length_induction (P : tuple -> Prop) :
  (forall s, (forall s', length s' < length s -> P s') -> P s) ->
  forall s, P s.
Proof.
  intros Hstep s. remember (length s) as n eqn:En. revert s En.
  induction n as [n IH] using lt_wf_ind. intros s ->.
  apply Hstep. intros s' Hlt. eapply IH; eauto.
Qed.

(** The first four transformations of a base form are in the table. *)
Lemma window_base (s : tuple) :
  Forall is_base s -> Forall is_base (firstn 4 s) /\ length (firstn 4 s) <= 4.
Proof.
  intros H. split.
  - rewrite Forall_forall in *. intros x Hx. apply H.
    rewrite <- (firstn_skipn 4 s). apply in_or_app. auto.
  - rewrite length_firstn. lia.
Qed.

Lemma rest_base (s : tuple) : Forall is_base s -> Forall is_base (skipn 4 s).
Proof.
  intros H. rewrite Forall_forall in *. intros x Hx. apply H.
  rewrite <- (firstn_skipn 4 s). apply in_or_app. auto.
Qed.

(** On a base form, [reduce_base_form] returns a reduced base form, and
    each of its lookups is on a sequence of the table. *)
Lemma reduce_base_form_base (s : tuple) :
  Forall is_base s ->
  exists rep,
    reduce_base_form s = Ok (VTuple rep) /\
    In rep canonical_forms /\
    Forall (fun q => Forall is_base q /\ length q <= 4) (lookups s).
Proof.
  induction s as [s IH] using length_induction. intros Hb.
  destruct (le_lt_dec 5 (length s)) as [Hlong|Hshort].
  - destruct (window_base s Hb) as [Hwb Hwl].
    destruct (representative_found _ Hwb Hwl) as (EQ & _ & _ & E & _ & Hrb).
    destruct (IH (hd [] EQ ++ skipn 4 s)) as (rep & Hr & Hc & Hl).
    + apply recursive_call_shorter; assumption.
    + apply Forall_app. split; [exact Hrb|apply rest_base; exact Hb].
    + exists rep. rewrite (reduce_base_form_step s _ Hlong E).
      rewrite (lookups_step s _ Hlong E). auto.
  - assert (Hlen : length s <= 4) by lia.
    destruct (representative_found _ Hb Hlen) as (EQ & _ & _ & E & Hc & _).
    exists (hd [] EQ). rewrite reduce_base_form_short, lookups_short by exact Hshort.
    rewrite E. auto.
Qed.

(** The number of lookups, which is the number of calls: one for a sequence
    of fewer than five transformations, and at most [length s - 3]. *)
Lemma lookups_bound (s : tuple) :
  1 <= length (lookups s) <= Nat.max 1 (length s - 3).
Proof.
  induction s as [s IH] using length_induction.
  destruct (le_lt_dec 5 (length s)) as [Hlong|Hshort].
  - destruct (representative (firstn 4 s)) as [| m |rep] eqn:E.
    + rewrite lookups_none by assumption. cbn [length]. lia.
    + exfalso. eapply representative_in_not_str. exact E.
    + rewrite (lookups_step s _ Hlong E). cbn [length].
      pose proof (recursive_call_shorter s _ Hlong E) as Hlt.
      specialize (IH _ Hlt). lia.
  - rewrite lookups_short by exact Hshort. cbn [length]. lia.
Qed.

(** ** The two rewritings *)

Lemma getitem_single (t : T) :
  getitem BIJECTIVE_BASE_RICH_MAP (VTuple [t]) = Ok (expansion t).
Proof. destruct t; reflexivity. Qed.

Lemma expansion_base (t : T) : Forall is_base (expansion t).
Proof.
  destruct t; simpl;
    repeat (apply Forall_cons || apply Forall_nil);
    solve [left; reflexivity | right; reflexivity].
Qed.

Lemma rewrite_to_base_form_loop_spec (s base_form : tuple) :
  rewrite_to_base_form_loop base_form s =
  Ok (base_form ++ flat_map expansion s).
Proof.
  revert base_form. induction s as [|t s IH]; intros base_form;
    cbn [rewrite_to_base_form_loop flat_map].
  - rewrite app_nil_r. reflexivity.
  - rewrite getitem_single. cbn [bind]. rewrite IH, <- app_assoc. reflexivity.
Qed.

(** [rewrite_to_base_form] never raises: it returns the expansions of the
    transformations, one after the other. *)
Lemma rewrite_to_base_form_spec (s : tuple) :
  rewrite_to_base_form s = Ok (flat_map expansion s).
Proof. unfold rewrite_to_base_form. apply rewrite_to_base_form_loop_spec. Qed.

Lemma flat_map_expansion_base (s : tuple) :
  Forall is_base (flat_map expansion s).
Proof.
  induction s as [|t s IH]; simpl; [constructor|].
  apply Forall_app. split; [apply expansion_base|exact IH].
Qed.

(** No key of the dictionary is written twice. *)
Lemma BIJECTIVE_BASE_RICH_MAP_keys_NoDup :
  NoDup (map fst BIJECTIVE_BASE_RICH_MAP).
Proof.
  apply (NoDup_count_occ' tuple_eq_dec). intros x Hx. simpl in Hx.
  repeat (destruct Hx as [<-|Hx]; [vm_compute; reflexivity|]).
  destruct Hx.
Qed.

(** A sequence that is no key of the dictionary: the handler of [KeyError]
    raises [TypeError] when it adds the tuple to the message. *)
Lemma rewrite_to_rich_form_no_key (s : tuple) :
  assoc BIJECTIVE_BASE_RICH_MAP s = None ->
  rewrite_to_rich_form (VTuple s) = Raise TypeError.
Proof. intros H. unfold rewrite_to_rich_form, getitem. rewrite H. reflexivity. Qed.

Lemma rewrite_to_rich_form_key (s rich : tuple) :
  assoc BIJECTIVE_BASE_RICH_MAP s = Some rich ->
  rewrite_to_rich_form (VTuple s) = Ok rich.
Proof. intros H. unfold rewrite_to_rich_form, getitem. rewrite H. reflexivity. Qed.

(** Among the sequences of [f] and [r], the keys of the dictionary are the
    eight reduced base forms. *)
Lemma base_key_canonical (s : tuple) :
  Forall is_base s ->
  (In s canonical_forms <-> assoc BIJECTIVE_BASE_RICH_MAP s <> None).
Proof.
  intros Hb. split.
  - unfold canonical_forms. simpl.
    intros H. repeat (destruct H as [<-|H]; [vm_compute; discriminate|]).
    destruct H.
  - intros H.
    assert (Hin : In s (map fst BIJECTIVE_BASE_RICH_MAP)).
    { revert H. generalize BIJECTIVE_BASE_RICH_MAP as d.
      induction d as [|[k v] d IH]; simpl; [congruence|].
      destruct (tuple_eq_dec s k) as [->|Hne]; auto. }
    simpl in Hin.
    repeat (destruct Hin as [<-|Hin];
            [first [ vm_compute; tauto
                   | exfalso;
                     repeat match goal with
                            | H : Forall _ (_ :: _) |- _ =>
                                inversion H; clear H; subst
                            | H : is_base _ |- _ =>
                                destruct H; discriminate
                            end ]|]).
    destruct Hin.
Qed.

(** The rich form of each reduced base form has at most two transformations
    and reduces to itself. *)
Lemma rewrite_to_rich_form_canonical (rep : tuple) :
  In rep canonical_forms ->
  exists rich,
    rewrite_to_rich_form (VTuple rep) = Ok rich /\
    length rich <= 2 /\
    reduce rich = Ok rich.
Proof.
  unfold canonical_forms. simpl. intros H.
  repeat (destruct H as [<-|H];
          [eexists; split; [vm_compute; reflexivity|];
           split; [simpl; lia|vm_compute; reflexivity]|]).
  destruct H.
Qed.

(** The three steps of [reduce] on a sequence of transformations. *)
Lemma reduce_steps (s : tuple) :
  exists rep rich,
    reduce_base_form (flat_map expansion s) = Ok (VTuple rep) /\
    In rep canonical_forms /\
    rewrite_to_rich_form (VTuple rep) = Ok rich /\
    reduce s = Ok rich.
Proof.
  destruct (reduce_base_form_base _ (flat_map_expansion_base s))
    as (rep & Hr & Hc & _).
  destruct (rewrite_to_rich_form_canonical rep Hc) as (rich & Hrich & _ & _).
  exists rep, rich. repeat split; auto.
  unfold reduce. rewrite rewrite_to_base_form_spec. simpl.
  rewrite Hr. simpl. exact Hrich.
Qed.

(** ** Images *)

Lemma transpose_value (op : T) (image : PIL.Image) :
  PIL.transpose (value op) image = Ok (transposed op image).
Proof. destruct op; reflexivity. Qed.

(** [apply] never raises. *)
Lemma apply_applied (s : tuple) (image : PIL.Image) :
  apply s image = Ok (applied s image).
Proof.
  revert image. induction s as [|op s IH]; intros image; [reflexivity|].
  cbn [apply]. rewrite transpose_value. cbn [bind]. rewrite IH. reflexivity.
Qed.

Lemma applied_app (s1 s2 : tuple) (image : PIL.Image) :
  applied (s1 ++ s2) image = applied s2 (applied s1 image).
Proof. unfold applied. apply fold_left_app. Qed.

Lemma agree_refl (a : PIL.Image) : agree a a.
Proof. repeat split. Qed.

Lemma agree_sym (a b : PIL.Image) : agree a b -> agree b a.
Proof. intros (Hw & Hh & Hp). repeat split; auto. Qed.

Lemma agree_trans (a b c : PIL.Image) : agree a b -> agree b c -> agree a c.
Proof.
  intros (Hw & Hh & Hp) (Hw' & Hh' & Hp').
  split; [|split]; [congruence|congruence|].
  intros x y. rewrite Hp. apply Hp'.
Qed.

Lemma transposed_agree (op : T) (a b : PIL.Image) :
  agree a b -> agree (transposed op a) (transposed op b).
Proof.
  intros (Hw & Hh & Hp).
  destruct op; (split; [|split]); simpl; try assumption;
    intros x y; rewrite ?Hw, ?Hh; apply Hp.
Qed.

Lemma applied_agree (s : tuple) (a b : PIL.Image) :
  agree a b -> agree (applied s a) (applied s b).
Proof.
  revert a b. induction s as [|op s IH]; intros a b H; [exact H|].
  apply (IH (transposed op a) (transposed op b)).
  apply transposed_agree. exact H.
Qed.

(** Equal sizes and pixel functions that differ only in how the position is
    written. *)
Ltac same_position :=
  repeat split; simpl; try reflexivity;
  intros; f_equal; lia.

(** Every sequence of a class transforms an image as the representative of
    the class does: the third check of the module, for every image. *)
Lemma class_members_agree (image : PIL.Image) :
  Forall (fun EQ =>
            Forall (fun s => agree (applied s image) (applied (hd [] EQ) image))
                   EQ)
         ALL_EQ.
Proof.
  repeat (apply Forall_cons || apply Forall_nil); same_position.
Qed.

Lemma representative_agree (s rep : tuple) (image : PIL.Image) :
  representative s = VTuple rep ->
  agree (applied rep image) (applied s image).
Proof.
  intros H. destruct (representative_in_inv _ _ _ H) as (EQ & HEQ & Hs & ->).
  pose proof (class_members_agree image) as Hc. rewrite Forall_forall in Hc.
  specialize (Hc _ HEQ). rewrite Forall_forall in Hc.
  apply agree_sym, Hc, Hs.
Qed.

(** [reduce_base_form] keeps the effect of the sequence on every image. *)
Lemma reduce_base_form_agree (s : tuple) :
  forall (rep : tuple) (image : PIL.Image),
    reduce_base_form s = Ok (VTuple rep) ->
    agree (applied rep image) (applied s image).
Proof.
  induction s as [s IH] using length_induction. intros rep image Hred.
  destruct (le_lt_dec 5 (length s)) as [Hlong|Hshort].
  - destruct (representative (firstn 4 s)) as [| m |win] eqn:E.
    + rewrite reduce_base_form_none in Hred by assumption. discriminate.
    + exfalso. eapply representative_in_not_str. exact E.
    + rewrite (reduce_base_form_step s _ Hlong E) in Hred.
      apply agree_trans with (applied (win ++ skipn 4 s) image).
      * apply IH; [apply recursive_call_shorter; assumption|exact Hred].
      * rewrite <- (firstn_skipn 4 s) at 2. rewrite !applied_app.
        apply applied_agree, representative_agree, E.
  - rewrite reduce_base_form_short in Hred by exact Hshort.
    injection Hred as Hred. apply representative_agree, Hred.
Qed.

(** The expansion of a transformation has the effect of the
    transformation. *)
Lemma expansion_agree (t : T) (image : PIL.Image) :
  agree (applied (expansion t) image) (transposed t image).
Proof. destruct t; same_position. Qed.

Lemma rewrite_to_base_form_agree (s : tuple) (image : PIL.Image) :
  agree (applied (flat_map expansion s) image) (applied s image).
Proof.
  revert image. induction s as [|t s IH]; intros image; [apply agree_refl|].
  cbn [flat_map]. rewrite applied_app.
  change (applied (t :: s) image) with (applied s (transposed t image)).
  eapply agree_trans; [|apply IH].
  apply applied_agree, expansion_agree.
Qed.

(** The rich form of a reduced base form has the effect of the base form. *)
Lemma rewrite_to_rich_form_agree (rep rich : tuple) (image : PIL.Image) :
  rewrite_to_rich_form (VTuple rep) = Ok rich ->
  agree (applied rich image) (applied rep image).
Proof.
  unfold rewrite_to_rich_form, getitem.
  destruct (assoc BIJECTIVE_BASE_RICH_MAP rep) as [v|] eqn:E; [|discriminate].
  intros [= ->]. revert E. simpl.
  repeat match goal with
         | |- context [tuple_eq_dec ?a ?b] =>
             destruct (tuple_eq_dec a b) as [->|_];
               [intros [= <-]; same_position|]
         end.
  discriminate.
Qed.

Lemma agree_image_eq (a b : PIL.Image) : agree a b -> image_eq a b.
Proof. intros (Hw & Hh & Hp). repeat split; auto. Qed.

Lemma agree_same (a b : PIL.Image) : agree a b -> same a b = true.
Proof.
  intros (_ & _ & Hp). unfold same, PIL.difference_is_empty.
  apply forallb_forall. intros y _. apply forallb_forall. intros x _.
  rewrite Hp. apply Z.eqb_refl.
Qed.

(** Every lookup of [reduce_base_form] is on a sequence of at most four
    transformations, whatever the sequence it is called on. *)
Lemma lookups_window (s : tuple) :
  Forall (fun q : tuple => length q <= 4) (lookups s).
Proof.
  induction s as [s IH] using length_induction.
  destruct (le_lt_dec 5 (length s)) as [Hlong|Hshort].
  - assert (Hw : length (firstn 4 s) <= 4) by (rewrite length_firstn; lia).
    destruct (representative (firstn 4 s)) as [| m |rep] eqn:E.
    + rewrite lookups_none by assumption. constructor; [exact Hw|constructor].
    + exfalso. eapply representative_in_not_str. exact E.
    + rewrite (lookups_step s _ Hlong E). constructor; [exact Hw|].
      apply IH, recursive_call_shorter; assumption.
  - rewrite lookups_short by exact Hshort. constructor; [lia|constructor].
Qed.

(** ** The scenarios of the specification *)

Example reduce_three_rotations :
  reduce [ROTATE_RIGHT; ROTATE_RIGHT; ROTATE_RIGHT] = Ok [ROTATE_LEFT].
Proof. reflexivity. Qed.

Example reduce_flip_two_rotations :
  reduce [FLIP_TOP_BOTTOM; ROTATE_RIGHT; ROTATE_RIGHT] = Ok [FLIP_LEFT_RIGHT].
Proof. reflexivity. Qed.

Example reduce_rotate_flip_twice :
  reduce [ROTATE_RIGHT; FLIP_TOP_BOTTOM; ROTATE_RIGHT; FLIP_TOP_BOTTOM] = Ok [].
Proof. reflexivity. Qed.

Example reduce_empty : reduce [] = Ok [].
Proof. reflexivity. Qed.

Example reduce_eight_rotations : reduce (repeat ROTATE_RIGHT 8) = Ok [].
Proof. reflexivity. Qed.

Example lookups_nine_rotations :
  lookups (repeat r 9) = [[r; r; r; r]; [r; r; r; r]; [r]].
Proof. reflexivity. Qed.

(** A lookup that finds no class inside the recursion: [None + tuple]. *)
Example reduce_base_form_not_base :
  reduce_base_form [r; r; r; ROTATE_180; r] = Raise TypeError.
Proof. reflexivity. Qed.

(** The dictionary maps each of its values back to the key: the check that
    the module computes and discards. *)
Lemma BIJECTIVE_BASE_RICH_MAP_involution :
  Forall (fun kv => assoc BIJECTIVE_BASE_RICH_MAP (snd kv) = Some (fst kv))
         BIJECTIVE_BASE_RICH_MAP.
Proof. repeat constructor. Qed.

(** * The claims *)

(** C1. For every sequence of transformations and every image, applying the
    reduced sequence yields the same image as applying the sequence: both
    applications return an image, the two images have the same size and the
    same pixel at every position, and [same] holds of them. *)
Theorem reduce_preserves_image (s : tuple) (image : PIL.Image) :
  exists (reduced : tuple) (a b : PIL.Image),
    reduce s = Ok reduced /\
    apply reduced image = Ok a /\
    apply s image = Ok b /\
    image_eq a b /\
    same a b = true.
Proof.
  destruct (reduce_steps s) as (rep & rich & Hbase & _ & Hrich & Hred).
  exists rich, (applied rich image), (applied s image).
  assert (H : agree (applied rich image) (applied s image)).
  { eapply agree_trans; [apply (rewrite_to_rich_form_agree _ _ _ Hrich)|].
    eapply agree_trans; [apply (reduce_base_form_agree _ _ _ Hbase)|].
    apply rewrite_to_base_form_agree. }
  repeat split; try apply apply_applied; try exact Hred;
    try apply agree_image_eq, H; try apply agree_same, H.
Qed.

(** C2. For every sequence of transformations, of any length, [reduce]
    returns a sequence of at most three transformations. *)
Theorem reduce_length_at_most_3 (s : tuple) :
  exists reduced : tuple, reduce s = Ok reduced /\ length reduced <= 3.
Proof.
  destruct (reduce_steps s) as (rep & rich & _ & Hc & Hrich & Hred).
  destruct (rewrite_to_rich_form_canonical rep Hc) as (rich' & Hrich' & Hl & _).
  assert (rich' = rich) by congruence. subst rich'.
  exists rich. split; [exact Hred|lia].
Qed.

(** C3. [reduce] is idempotent: the sequence that [reduce] returns is
    returned unchanged by [reduce]. *)
Theorem reduce_idempotent (s : tuple) :
  exists reduced : tuple, reduce s = Ok reduced /\ reduce reduced = Ok reduced.
Proof.
  destruct (reduce_steps s) as (rep & rich & _ & Hc & Hrich & Hred).
  destruct (rewrite_to_rich_form_canonical rep Hc) as (rich' & Hrich' & _ & Hi).
  assert (rich' = rich) by congruence. subst rich'.
  exists rich. split; assumption.
Qed.

(** On a call stack without bound, [reduce] is total on sequences of the
    five transformations: it returns a sequence, and raises none of
    [KeyError], [TypeError] and [ValueError].  [reduce_recursion_limit]
    is the statement under the recursion limit. *)
Theorem reduce_total (s : tuple) :
  exists reduced : tuple, reduce s = Ok reduced.
Proof.
  destruct (reduce_steps s) as (rep & rich & _ & _ & _ & Hred).
  exists rich. exact Hred.
Qed.

(** C5. On a sequence of base transformations, [rewrite_to_rich_form]
    returns a rich form exactly when the sequence is one of the eight
    reduced base forms.  On every other such sequence it fails, but the
    exception is [TypeError], raised while the message of the [ValueError]
    is built by adding the tuple to a string; the [ValueError] that the
    handler means to raise is never raised. *)
Theorem rewrite_to_rich_form_base (s : tuple) (Hbase : Forall is_base s) :
  length canonical_forms = 8 /\
  (In s canonical_forms ->
   exists rich, rewrite_to_rich_form (VTuple s) = Ok rich) /\
  (~ In s canonical_forms ->
   rewrite_to_rich_form (VTuple s) = Raise TypeError).
Proof.
  pose proof (base_key_canonical s Hbase) as Hkey.
  split; [reflexivity|]. split; intros H.
  - apply Hkey in H.
    destruct (assoc BIJECTIVE_BASE_RICH_MAP s) as [rich|] eqn:E; [|congruence].
    exists rich. apply rewrite_to_rich_form_key, E.
  - apply rewrite_to_rich_form_no_key.
    destruct (assoc BIJECTIVE_BASE_RICH_MAP s) as [rich|] eqn:E; [|reflexivity].
    exfalso. apply H, Hkey. discriminate.
Qed.

Lemma not_canonical_f_f : ~ In [f; f] canonical_forms.
Proof.
  unfold canonical_forms. simpl. intros H.
  repeat (destruct H as [H|H]; [discriminate H|]). destruct H.
Qed.

Lemma rewrite_to_rich_form_base_witness :
  Forall is_base [f; f] /\
  ~ In [f; f] canonical_forms /\
  rewrite_to_rich_form (VTuple [f; f]) = Raise TypeError.
Proof.
  assert (Hb : Forall is_base [f; f])
    by (repeat constructor; left; reflexivity).
  split; [exact Hb|]. split; [exact not_canonical_f_f|].
  apply (proj2 (proj2 (rewrite_to_rich_form_base [f; f] Hb))).
  exact not_canonical_f_f.
Defined.

(** C6, as the code has it.  The lookup of a sequence of more than four
    transformations raises nothing and returns [None]. *)
Theorem representative_long (s : tuple) :
  4 < length s -> representative s = VNone.
Proof.
  intros H. apply representative_not_found. intros Hin.
  apply table_sound in Hin. lia.
Qed.

Lemma representative_long_witness :
  4 < length [f; r; r; f; r; r] /\ representative [f; r; r; f; r; r] = VNone.
Proof.
  split; [simpl; lia|].
  apply (representative_long [f; r; r; f; r; r]). simpl. lia.
Defined.

(** C6, as the specification states it, fails: the lookup of the sequence of
    five rotations, which is outside the table, returns [None]. *)
Lemma representative_r5_returns_None :
  4 < length [r; r; r; r; r] /\ representative [r; r; r; r; r] = VNone.
Proof. split; [simpl; lia|reflexivity]. Qed.

(** C7. [reduce_base_form] terminates on sequences of every length.  The
    representative of each of the eight classes has at most three
    transformations; so the sequence of a recursive call, the representative
    of the first four transformations followed by the rest, is shorter than
    the sequence by at least one; and a call on a sequence makes at most
    [max 1 (length s - 3)] calls in all, one table lookup each. *)
Theorem reduce_base_form_terminates :
  length ALL_EQ = 8 /\
  Forall (fun EQ => length (hd [] EQ) <= 3) ALL_EQ /\
  forall s : tuple,
    (forall rep : tuple,
        5 <= length s ->
        representative (firstn 4 s) = VTuple rep ->
        length (rep ++ skipn 4 s) + 1 <= length s) /\
    1 <= length (lookups s) <= Nat.max 1 (length s - 3).
Proof.
  split; [reflexivity|]. split; [exact representatives_short|].
  intros s. split; [|apply lookups_bound].
  intros rep Hlong E. pose proof (recursive_call_shorter s rep Hlong E). lia.
Qed.

Lemma reduce_base_form_terminates_witness :
  5 <= length [r; r; r; r; f; r] /\
  representative (firstn 4 [r; r; r; r; f; r]) = VTuple [] /\
  length ([] ++ skipn 4 [r; r; r; r; f; r]) + 1 <= length [r; r; r; r; f; r].
Proof.
  split; [simpl; lia|]. split; [reflexivity|].
  apply (proj1 (proj2 (proj2 reduce_base_form_terminates) [r; r; r; r; f; r])).
  - simpl. lia.
  - reflexivity.
Defined.

(** C8. For each of the five transformations [t], the expansion of [(t,)] is
    rewritten by [rewrite_to_rich_form] to the one-element sequence [(t,)]. *)
Theorem expansion_round_trip (t : T) :
  exists base : tuple,
    rewrite_to_base_form [t] = Ok base /\
    base = expansion t /\
    rewrite_to_rich_form (VTuple base) = Ok [t].
Proof.
  exists (expansion t). destruct t; repeat split.
Qed.

(** C9. For every sequence of the five transformations,
    [rewrite_to_base_form] returns a sequence of [f] and [r] only; every
    table lookup that [reduce_base_form] performs on it is on a sequence that
    is a member of a class, and returns the representative of that class,
    never [None]. *)
Theorem reduce_lookups_found (s : tuple) :
  exists base : tuple,
    rewrite_to_base_form s = Ok base /\
    Forall is_base base /\
    Forall (fun q =>
              exists EQ, In EQ ALL_EQ /\ In q EQ /\
                         representative q = VTuple (hd [] EQ))
           (lookups base) /\
    Forall (fun q => representative q <> VNone) (lookups base).
Proof.
  exists (flat_map expansion s).
  pose proof (flat_map_expansion_base s) as Hb.
  destruct (reduce_base_form_base _ Hb) as (rep & _ & _ & Hl).
  assert (Hfound : Forall (fun q =>
              exists EQ, In EQ ALL_EQ /\ In q EQ /\
                         representative q = VTuple (hd [] EQ))
           (lookups (flat_map expansion s))).
  { eapply Forall_impl; [|exact Hl]. intros q [Hq Hlen].
    destruct (representative_found q Hq Hlen) as (EQ & ? & ? & ? & _).
    exists EQ. auto. }
  split; [apply rewrite_to_base_form_spec|]. split; [exact Hb|].
  split; [exact Hfound|].
  eapply Forall_impl; [|exact Hfound].
  intros q (EQ & _ & _ & E). rewrite E. discriminate.
Qed.

(** C10. For every sequence of transformations, [reduce] returns a sequence
    of at most two transformations, because the rich form that the map holds
    for each reduced base form has at most two. *)
Theorem reduce_length_at_most_2 (s : tuple) :
  Forall (fun rep =>
            exists rich, rewrite_to_rich_form (VTuple rep) = Ok rich /\
                         length rich <= 2)
         canonical_forms /\
  exists reduced : tuple, reduce s = Ok reduced /\ length reduced <= 2.
Proof.
  split.
  - apply Forall_forall. intros rep Hc.
    destruct (rewrite_to_rich_form_canonical rep Hc) as (rich & H1 & H2 & _).
    exists rich. auto.
  - destruct (reduce_steps s) as (rep & rich & _ & Hc & Hrich & Hred).
    destruct (rewrite_to_rich_form_canonical rep Hc) as (rich' & Hrich' & Hl & _).
    assert (rich' = rich) by congruence. subst rich'.
    exists rich. split; assumption.
Qed.

(** * Further properties *)

(** ** The table and its lookup *)

(** X1. The classes of [ALL_EQ] hold every sequence of [f] and [r] of length
    at most four, nothing else, and none of them twice: the two assertions
    that the module makes on its table when it is imported. *)
Theorem ALL_EQ_partition :
  NoDup (concat ALL_EQ) /\
  length (concat ALL_EQ) = 2 ^ 0 + 2 ^ 1 + 2 ^ 2 + 2 ^ 3 + 2 ^ 4 /\
  forall s : tuple,
    In s (concat ALL_EQ) <-> (Forall is_base s /\ length s <= 4).
Proof.
  split; [exact ALL_EQ_NoDup|]. split; [exact ALL_EQ_count|].
  intros s. split.
  - apply table_sound.
  - intros [Hb Hl]. apply table_complete; assumption.
Qed.

(** X2. [ALL_EQ] is a set and the loop of [representative] visits its
    classes in an order that Python does not fix: the lookup returns the
    same value for every order of the classes. *)
Theorem representative_order_independent
        (classes : list (list tuple)) (s : tuple)
        (Hperm : Permutation classes ALL_EQ) :
  representative_in classes s = representative s.
Proof. apply representative_any_order, Hperm. Qed.

Lemma representative_order_independent_witness :
  Permutation (rev ALL_EQ) ALL_EQ /\
  representative_in (rev ALL_EQ) [f; r; f] = representative [f; r; f].
Proof.
  assert (Hp : Permutation (rev ALL_EQ) ALL_EQ)
    by (apply Permutation_sym, Permutation_rev).
  split; [exact Hp|].
  apply (representative_order_independent (rev ALL_EQ) [f; r; f] Hp).
Defined.

(** The representative of a class is a shortest member of the class. *)
Lemma representatives_shortest :
  Forall (fun EQ => Forall (fun s : tuple => length (hd [] EQ) <= length s) EQ)
         ALL_EQ.
Proof. repeat (apply Forall_cons || apply Forall_nil); simpl; lia. Qed.

Lemma representative_not_longer (s rep : tuple) :
  representative s = VTuple rep -> length rep <= length s.
Proof.
  intros H. destruct (representative_in_inv _ _ _ H) as (EQ & HEQ & Hs & ->).
  pose proof representatives_shortest as Hm. rewrite Forall_forall in Hm.
  specialize (Hm _ HEQ). rewrite Forall_forall in Hm. auto.
Qed.

Lemma representative_tuple_base (s rep : tuple) :
  representative s = VTuple rep ->
  Forall is_base s /\ length s <= 4 /\ Forall is_base rep.
Proof.
  intros H. destruct (representative_in_inv _ _ _ H) as (EQ & HEQ & Hs & ->).
  assert (Hin : In s (concat ALL_EQ)) by (apply in_concat; eauto).
  destruct (table_sound s Hin) as [Hb Hl].
  destruct (representative_found s Hb Hl) as (EQ' & HEQ' & Hs' & E & _ & Hrb).
  rewrite H in E. injection E as E. rewrite E. auto.
Qed.

(** X3. The lookup finds a sequence exactly when it consists of [f] and [r]
    and has at most four transformations; the representative that it then
    returns consists of [f] and [r] and is not longer than the sequence.
    For every other sequence, one with another transformation or a longer
    one, it returns [None]. *)
Theorem representative_domain (s : tuple) :
  (Forall is_base s /\ length s <= 4 ->
   exists rep, representative s = VTuple rep /\
               Forall is_base rep /\ length rep <= length s) /\
  (~ (Forall is_base s /\ length s <= 4) -> representative s = VNone).
Proof.
  split.
  - intros [Hb Hl].
    destruct (representative_found s Hb Hl) as (EQ & _ & _ & E & _ & Hrb).
    exists (hd [] EQ). repeat split; auto.
    apply representative_not_longer with (s := s), E.
  - intros H. apply representative_not_found. intros Hin.
    apply H, table_sound, Hin.
Qed.

Lemma representative_domain_witness :
  ~ (Forall is_base [ROTATE_180] /\ length [ROTATE_180] <= 4) /\
  representative [ROTATE_180] = VNone.
Proof.
  assert (Hn : ~ (Forall is_base [ROTATE_180] /\ length [ROTATE_180] <= 4)).
  { intros [Hb _]. inversion Hb as [|? ? [Hx|Hx] _]; discriminate Hx. }
  split; [exact Hn|].
  apply (proj2 (representative_domain [ROTATE_180])), Hn.
Defined.

(** ** [reduce_base_form] *)

Lemma canonical_forms_fixed (rep : tuple) :
  In rep canonical_forms -> reduce_base_form rep = Ok (VTuple rep).
Proof.
  unfold canonical_forms. simpl. intros H.
  repeat (destruct H as [<-|H]; [reflexivity|]). destruct H.
Qed.

(** The result of [reduce_base_form] is not longer than the sequence. *)
Lemma reduce_base_form_not_longer (s : tuple) :
  forall rep, reduce_base_form s = Ok (VTuple rep) -> length rep <= length s.
Proof.
  induction s as [s IH] using length_induction. intros rep Hred.
  destruct (le_lt_dec 5 (length s)) as [Hlong|Hshort].
  - destruct (representative (firstn 4 s)) as [| m |win] eqn:E.
    + rewrite reduce_base_form_none in Hred by assumption. discriminate.
    + exfalso. eapply representative_in_not_str. exact E.
    + rewrite (reduce_base_form_step s _ Hlong E) in Hred.
      pose proof (recursive_call_shorter s _ Hlong E) as Hlt.
      specialize (IH _ Hlt rep Hred). lia.
  - rewrite reduce_base_form_short in Hred by exact Hshort.
    injection Hred as Hred. apply representative_not_longer, Hred.
Qed.

(** X4. On a sequence of [f] and [r] of any length, [reduce_base_form]
    returns one of the eight reduced base forms; it is not longer than the
    sequence and transforms every image as the sequence does.  This is the
    first exhaustive test of the module, for every length and image. *)
Theorem reduce_base_form_correct (s : tuple) (Hbase : Forall is_base s) :
  exists rep : tuple,
    reduce_base_form s = Ok (VTuple rep) /\
    In rep canonical_forms /\
    length rep <= length s /\
    forall image : PIL.Image,
    exists a b : PIL.Image,
      apply rep image = Ok a /\ apply s image = Ok b /\
      image_eq a b /\ same a b = true.
Proof.
  destruct (reduce_base_form_base s Hbase) as (rep & Hred & Hc & _).
  exists rep. repeat split; auto.
  - apply reduce_base_form_not_longer, Hred.
  - intros image. exists (applied rep image), (applied s image).
    pose proof (reduce_base_form_agree s rep image Hred) as Ha.
    repeat split; try apply apply_applied.
    + apply agree_image_eq, Ha.
    + apply agree_image_eq, Ha.
    + apply agree_image_eq, Ha.
    + apply agree_same, Ha.
Qed.

Lemma base_r_r_r_r_f : Forall is_base [r; r; r; r; f].
Proof.
  repeat (apply Forall_cons || apply Forall_nil);
    solve [left; reflexivity | right; reflexivity].
Qed.

Lemma reduce_base_form_correct_witness :
  Forall is_base [r; r; r; r; f] /\
  exists rep : tuple,
    reduce_base_form [r; r; r; r; f] = Ok (VTuple rep) /\
    In rep canonical_forms /\
    length rep <= length [r; r; r; r; f] /\
    forall image : PIL.Image,
    exists a b : PIL.Image,
      apply rep image = Ok a /\ apply [r; r; r; r; f] image = Ok b /\
      image_eq a b /\ same a b = true.
Proof.
  split; [exact base_r_r_r_r_f|].
  apply (reduce_base_form_correct [r; r; r; r; f] base_r_r_r_r_f).
Defined.

(** X5. [reduce_base_form] returns a tuple only on sequences of [f] and [r].
    On a sequence with another transformation it returns [None] or raises
    [TypeError], the error of [None + tuple]. *)
Theorem reduce_base_form_outside_base (s : tuple) (Hnot : ~ Forall is_base s) :
  reduce_base_form s = Ok VNone \/ reduce_base_form s = Raise TypeError.
Proof.
  revert Hnot. induction s as [s IH] using length_induction. intros Hnot.
  destruct (le_lt_dec 5 (length s)) as [Hlong|Hshort].
  - destruct (representative (firstn 4 s)) as [| m |win] eqn:E.
    + right. apply reduce_base_form_none; assumption.
    + exfalso. eapply representative_in_not_str. exact E.
    + rewrite (reduce_base_form_step s _ Hlong E).
      apply IH; [apply recursive_call_shorter; assumption|].
      destruct (representative_tuple_base _ _ E) as (Hwb & _ & _).
      intros Hall. apply Forall_app in Hall. destruct Hall as [_ Htail].
      apply Hnot. rewrite <- (firstn_skipn 4 s). apply Forall_app. auto.
  - left. rewrite reduce_base_form_short by exact Hshort.
    destruct (representative s) as [| m |rep] eqn:E; [reflexivity| |].
    + exfalso. eapply representative_in_not_str. exact E.
    + exfalso. apply Hnot. apply (representative_tuple_base _ _ E).
Qed.

Lemma not_base_with_180 : ~ Forall is_base [r; r; r; ROTATE_180; r].
Proof.
  intros H. rewrite Forall_forall in H.
  destruct (H ROTATE_180) as [Hx|Hx]; [simpl; tauto|discriminate Hx..].
Qed.

Lemma reduce_base_form_outside_base_witness :
  ~ Forall is_base [r; r; r; ROTATE_180; r] /\
  (reduce_base_form [r; r; r; ROTATE_180; r] = Ok VNone \/
   reduce_base_form [r; r; r; ROTATE_180; r] = Raise TypeError).
Proof.
  split; [exact not_base_with_180|].
  apply (reduce_base_form_outside_base [r; r; r; ROTATE_180; r] not_base_with_180).
Defined.

(** X6. [reduce_base_form] is idempotent: it returns each of the eight
    reduced base forms unchanged, and so the sequence that it returns for a
    sequence of [f] and [r]. *)
Theorem reduce_base_form_idempotent (s : tuple) (Hbase : Forall is_base s) :
  exists rep : tuple,
    reduce_base_form s = Ok (VTuple rep) /\
    reduce_base_form rep = Ok (VTuple rep).
Proof.
  destruct (reduce_base_form_base s Hbase) as (rep & Hred & Hc & _).
  exists rep. split; [exact Hred|apply canonical_forms_fixed, Hc].
Qed.

Lemma reduce_base_form_idempotent_witness :
  Forall is_base [r; r; r; r; f] /\
  exists rep : tuple,
    reduce_base_form [r; r; r; r; f] = Ok (VTuple rep) /\
    reduce_base_form rep = Ok (VTuple rep).
Proof.
  split; [exact base_r_r_r_r_f|].
  apply (reduce_base_form_idempotent [r; r; r; r; f] base_r_r_r_r_f).
Defined.

(** ** Equal images *)

Lemma image_eq_refl (a : PIL.Image) : image_eq a a.
Proof. repeat split. Qed.

Lemma image_eq_sym (a b : PIL.Image) : image_eq a b -> image_eq b a.
Proof.
  intros (Hw & Hh & Hp). split; [|split]; [congruence|congruence|].
  intros x y Hx Hy. symmetry. apply Hp; lia.
Qed.

Lemma image_eq_trans (a b c : PIL.Image) :
  image_eq a b -> image_eq b c -> image_eq a c.
Proof.
  intros (Hw & Hh & Hp) (Hw' & Hh' & Hp').
  split; [|split]; [congruence|congruence|].
  intros x y Hx Hy. rewrite Hp by assumption. apply Hp'; lia.
Qed.

Lemma in_positions (n z : Z) : In z (PIL.positions n) -> (0 <= z < n)%Z.
Proof.
  unfold PIL.positions. rewrite in_map_iff. intros (k & <- & Hk).
  apply in_seq in Hk. lia.
Qed.

Lemma image_eq_same (a b : PIL.Image) : image_eq a b -> same a b = true.
Proof.
  intros (Hw & Hh & Hp). unfold same, PIL.difference_is_empty.
  rewrite <- Hw, <- Hh, !Z.min_id.
  apply forallb_forall. intros y Hy. apply forallb_forall. intros x Hx.
  apply in_positions in Hx, Hy. rewrite Hp by assumption. apply Z.eqb_refl.
Qed.

Lemma equivalent_applied (s1 s2 : tuple) :
  equivalent s1 s2 <->
  forall image, image_eq (applied s1 image) (applied s2 image).
Proof.
  split.
  - intros H image. destruct (H image) as (a & b & Ha & Hb & Hab).
    rewrite apply_applied in Ha, Hb. injection Ha as <-. injection Hb as <-.
    exact Hab.
  - intros H image. exists (applied s1 image), (applied s2 image).
    repeat split; try apply apply_applied; apply H.
Qed.

(** ** Distinct classes *)

(** [reduce] returns one of eight sequences, and with the effect of its
    argument. *)
Lemma reduce_agree (s : tuple) :
  exists out : tuple,
    reduce s = Ok out /\ In out reduced_forms /\
    forall image, agree (applied out image) (applied s image).
Proof.
  destruct (reduce_steps s) as (rep & rich & Hbase & Hc & Hrich & Hred).
  exists rich. split; [exact Hred|]. split.
  - revert Hrich. unfold canonical_forms in Hc. simpl in Hc.
    repeat (destruct Hc as [<-|Hc];
            [intros [= <-]; simpl; tauto|]).
    destruct Hc.
  - intros image.
    eapply agree_trans; [apply (rewrite_to_rich_form_agree _ _ _ Hrich)|].
    eapply agree_trans; [apply (reduce_base_form_agree _ _ _ Hbase)|].
    apply rewrite_to_base_form_agree.
Qed.

(** The eight sequences transform the image [probe] into eight images. *)
Lemma reduced_forms_distinct (o1 o2 : tuple) :
  In o1 reduced_forms -> In o2 reduced_forms ->
  same (applied o1 probe) (applied o2 probe) = true -> o1 = o2.
Proof.
  unfold reduced_forms. simpl. intros H1 H2.
  repeat (destruct H1 as [<-|H1]);
    try (destruct H1);
    repeat (destruct H2 as [<-|H2]);
    try (destruct H2);
    intros H; first [reflexivity|vm_compute in H; discriminate H].
Qed.

Lemma canonical_forms_distinct (EQ1 EQ2 : list tuple) :
  In EQ1 ALL_EQ -> In EQ2 ALL_EQ ->
  same (applied (hd [] EQ1) probe) (applied (hd [] EQ2) probe) = true ->
  EQ1 = EQ2.
Proof.
  unfold ALL_EQ. simpl. intros H1 H2.
  repeat (destruct H1 as [<-|H1]);
    try (destruct H1);
    repeat (destruct H2 as [<-|H2]);
    try (destruct H2);
    intros H; first [reflexivity|vm_compute in H; discriminate H].
Qed.

(** X7. The representatives of two different classes transform some image
    into two images that [same] tells apart; the image [probe] is one.
    This is the check of the module that no two classes produce the same
    image. *)
Theorem classes_distinct (EQ1 EQ2 : list tuple)
        (H1 : In EQ1 ALL_EQ) (H2 : In EQ2 ALL_EQ) (Hne : EQ1 <> EQ2) :
  exists image1 image2 : PIL.Image,
    apply (hd [] EQ1) probe = Ok image1 /\
    apply (hd [] EQ2) probe = Ok image2 /\
    same image1 image2 = false.
Proof.
  exists (applied (hd [] EQ1) probe), (applied (hd [] EQ2) probe).
  repeat split; try apply apply_applied.
  destruct (same (applied (hd [] EQ1) probe) (applied (hd [] EQ2) probe))
    eqn:E; [|reflexivity].
  exfalso. apply Hne. apply canonical_forms_distinct; assumption.
Qed.

Lemma classes_distinct_witness :
  In R ALL_EQ /\ In FRR ALL_EQ /\ R <> FRR /\
  exists image1 image2 : PIL.Image,
    apply (hd [] R) probe = Ok image1 /\
    apply (hd [] FRR) probe = Ok image2 /\
    same image1 image2 = false.
Proof.
  assert (H1 : In R ALL_EQ) by (simpl; tauto).
  assert (H2 : In FRR ALL_EQ) by (simpl; tauto).
  assert (Hne : R <> FRR) by discriminate.
  split; [exact H1|]. split; [exact H2|]. split; [exact Hne|].
  apply (classes_distinct R FRR H1 H2 Hne).
Defined.

(** ** [reduce] decides equivalence *)

Lemma reduce_eq_equivalent (s1 s2 : tuple) :
  reduce s1 = reduce s2 <->
  forall image, image_eq (applied s1 image) (applied s2 image).
Proof.
  destruct (reduce_agree s1) as (o1 & Hr1 & Hin1 & Ha1).
  destruct (reduce_agree s2) as (o2 & Hr2 & Hin2 & Ha2).
  split.
  - intros H image. rewrite Hr1, Hr2 in H. injection H as ->.
    apply agree_image_eq.
    eapply agree_trans; [apply agree_sym, Ha1|apply Ha2].
  - intros H. rewrite Hr1, Hr2. f_equal.
    apply reduced_forms_distinct; try assumption.
    apply image_eq_same.
    eapply image_eq_trans; [apply agree_image_eq, Ha1|].
    eapply image_eq_trans; [apply H|].
    apply agree_image_eq, agree_sym, Ha2.
Qed.

(** X8. [reduce] decides the equivalence of two sequences: they transform
    every image into the same image exactly when [reduce] returns the same
    sequence for both. *)
Theorem reduce_decides_equivalence (s1 s2 : tuple) :
  equivalent s1 s2 <-> reduce s1 = reduce s2.
Proof.
  rewrite equivalent_applied. symmetry. apply reduce_eq_equivalent.
Qed.

Lemma reduce_not_longer (s out : tuple) :
  reduce s = Ok out -> length out <= length s.
Proof.
  destruct s as [|t [|t' s]].
  - intros H. vm_compute in H. injection H as <-. simpl. lia.
  - destruct t; intros H; vm_compute in H; injection H as <-; simpl; lia.
  - intros H.
    destruct (reduce_steps (t :: t' :: s)) as (rep & rich & _ & Hc & Hrich & Hred).
    destruct (rewrite_to_rich_form_canonical rep Hc) as (rich' & Hrich' & Hl & _).
    assert (rich' = out) by congruence. subst. simpl. lia.
Qed.

(** X9. [reduce] returns a minimal equivalent sequence, as its docstring
    says: no sequence that is equivalent to the argument is shorter than
    the result. *)
Theorem reduce_minimal (s s' out : tuple)
        (Hequiv : equivalent s' s) (Hred : reduce s = Ok out) :
  length out <= length s'.
Proof.
  apply reduce_not_longer.
  rewrite equivalent_applied in Hequiv.
  apply reduce_eq_equivalent in Hequiv. congruence.
Qed.

Lemma equivalent_180_r_r : equivalent [ROTATE_180] [r; r; r; r; r; r].
Proof.
  apply equivalent_applied. intros image. apply agree_image_eq.
  same_position.
Qed.

Lemma reduce_minimal_witness :
  equivalent [ROTATE_180] [r; r; r; r; r; r] /\
  reduce [r; r; r; r; r; r] = Ok [ROTATE_180] /\
  length [ROTATE_180] <= length [ROTATE_180].
Proof.
  split; [exact equivalent_180_r_r|]. split; [reflexivity|].
  apply (reduce_minimal [r; r; r; r; r; r] [ROTATE_180] [ROTATE_180]
                        equivalent_180_r_r eq_refl).
Defined.

(** X10. [reduce] may be applied to the parts of a sequence first: reducing
    the concatenation of two sequences and reducing the concatenation of
    their reduced sequences return the same sequence. *)
Theorem reduce_app (s1 s2 : tuple) :
  exists o1 o2 : tuple,
    reduce s1 = Ok o1 /\ reduce s2 = Ok o2 /\
    reduce (s1 ++ s2) = reduce (o1 ++ o2).
Proof.
  destruct (reduce_agree s1) as (o1 & Hr1 & _ & Ha1).
  destruct (reduce_agree s2) as (o2 & Hr2 & _ & Ha2).
  exists o1, o2. split; [exact Hr1|]. split; [exact Hr2|].
  apply reduce_eq_equivalent. intros image. apply agree_image_eq.
  rewrite !applied_app.
  eapply agree_trans; [apply agree_sym, Ha2|].
  apply applied_agree, agree_sym, Ha1.
Qed.

(** X11. Among the sequences of [f] and [r], [reduce_base_form] returns a
    shortest one with the effect of its argument: no equivalent sequence of
    [f] and [r] is shorter than the result. *)
Theorem reduce_base_form_minimal (s s' rep : tuple)
        (Hbase : Forall is_base s') (Hequiv : equivalent s' s)
        (Hred : reduce_base_form s = Ok (VTuple rep)) :
  length rep <= length s'.
Proof.
  destruct (reduce_base_form_base s' Hbase) as (rep' & Hred' & Hc' & _).
  assert (Hc : In rep canonical_forms).
  { destruct (Forall_dec is_base) with (l := s) as [Hb|Hnb].
    - intros t. unfold is_base.
      destruct (T_eq_dec t f); [left; auto|].
      destruct (T_eq_dec t r); [left; auto|]. right. tauto.
    - destruct (reduce_base_form_base s Hb) as (rep0 & Hred0 & Hc0 & _).
      congruence.
    - destruct (reduce_base_form_outside_base s Hnb); congruence. }
  assert (Heq : rep' = rep).
  { unfold canonical_forms in Hc, Hc'. apply in_map_iff in Hc, Hc'.
    destruct Hc as (EQ & <- & HEQ). destruct Hc' as (EQ' & <- & HEQ').
    f_equal. apply canonical_forms_distinct; try assumption.
    apply image_eq_same. rewrite equivalent_applied in Hequiv.
    eapply image_eq_trans;
      [apply agree_image_eq, (reduce_base_form_agree _ _ _ Hred')|].
    eapply image_eq_trans; [apply Hequiv|].
    apply agree_image_eq, agree_sym, (reduce_base_form_agree _ _ _ Hred). }
  subst rep'. apply reduce_base_form_not_longer, Hred'.
Qed.

Lemma base_f_r_f : Forall is_base [f; r; f].
Proof.
  repeat (apply Forall_cons || apply Forall_nil);
    solve [left; reflexivity | right; reflexivity].
Qed.

Lemma equivalent_f_r_f : equivalent [f; r; f] [r; r; r; f; f].
Proof.
  apply equivalent_applied. intros image. apply agree_image_eq.
  same_position.
Qed.

Lemma reduce_base_form_minimal_witness :
  Forall is_base [f; r; f] /\
  equivalent [f; r; f] [r; r; r; f; f] /\
  reduce_base_form [r; r; r; f; f] = Ok (VTuple [r; r; r]) /\
  length [r; r; r] <= length [f; r; f].
Proof.
  split; [exact base_f_r_f|]. split; [exact equivalent_f_r_f|].
  split; [reflexivity|].
  apply (reduce_base_form_minimal [r; r; r; f; f] [f; r; f] [r; r; r]
                                  base_f_r_f equivalent_f_r_f eq_refl).
Defined.

(** ** The two rewritings *)

Lemma expansion_length (t : T) : 1 <= length (expansion t) <= 3.
Proof. destruct t; simpl; lia. Qed.

Lemma flat_map_expansion_length (s : tuple) :
  length s <= length (flat_map expansion s) <= 3 * length s.
Proof.
  induction s as [|t s IH]; simpl; [lia|].
  rewrite length_app. pose proof (expansion_length t). lia.
Qed.

(** X12. [rewrite_to_base_form] raises nothing and rewrites a concatenation
    part by part; the base form has at least as many transformations as the
    sequence and at most three times as many. *)
Theorem rewrite_to_base_form_app (s1 s2 : tuple) :
  exists b1 b2 : tuple,
    rewrite_to_base_form s1 = Ok b1 /\
    rewrite_to_base_form s2 = Ok b2 /\
    rewrite_to_base_form (s1 ++ s2) = Ok (b1 ++ b2) /\
    length s1 <= length b1 <= 3 * length s1.
Proof.
  exists (flat_map expansion s1), (flat_map expansion s2).
  rewrite !rewrite_to_base_form_spec, flat_map_app.
  repeat split; apply flat_map_expansion_length.
Qed.

Lemma rewrite_to_rich_form_Ok (k v : tuple) :
  rewrite_to_rich_form (VTuple k) = Ok v ->
  assoc BIJECTIVE_BASE_RICH_MAP k = Some v.
Proof.
  unfold rewrite_to_rich_form, getitem.
  destruct (assoc BIJECTIVE_BASE_RICH_MAP k); [|discriminate].
  intros [= ->]. reflexivity.
Qed.

Lemma assoc_involution (k v : tuple) :
  assoc BIJECTIVE_BASE_RICH_MAP k = Some v ->
  assoc BIJECTIVE_BASE_RICH_MAP v = Some k.
Proof.
  simpl.
  repeat match goal with
         | |- context [tuple_eq_dec k ?b] =>
             destruct (tuple_eq_dec k b) as [->|_];
               [intros [= <-]; reflexivity|]
         end.
  discriminate.
Qed.

(** X13. The dictionary is its own inverse, which the module computes and
    does not assert: when [rewrite_to_rich_form] rewrites a sequence [k] to
    [v], it rewrites [v] to [k]; and [k] and [v] are equivalent. *)
Theorem rewrite_to_rich_form_involution (k v : tuple)
        (Hkv : rewrite_to_rich_form (VTuple k) = Ok v) :
  rewrite_to_rich_form (VTuple v) = Ok k /\ equivalent v k.
Proof.
  split.
  - apply rewrite_to_rich_form_key, assoc_involution,
      rewrite_to_rich_form_Ok, Hkv.
  - apply equivalent_applied. intros image.
    apply agree_image_eq, (rewrite_to_rich_form_agree _ _ _ Hkv).
Qed.

Lemma rewrite_to_rich_form_involution_witness :
  rewrite_to_rich_form (VTuple [f; r; r]) = Ok [FLIP_LEFT_RIGHT] /\
  rewrite_to_rich_form (VTuple [FLIP_LEFT_RIGHT]) = Ok [f; r; r] /\
  equivalent [FLIP_LEFT_RIGHT] [f; r; r].
Proof.
  split; [reflexivity|].
  apply (rewrite_to_rich_form_involution [f; r; r] [FLIP_LEFT_RIGHT] eq_refl).
Defined.

(** ** [apply] *)

(** X14. [apply] raises nothing, and applying a concatenation is applying
    its parts one after the other. *)
Theorem apply_app (s1 s2 : tuple) (image : PIL.Image) :
  exists middle out : PIL.Image,
    apply s1 image = Ok middle /\
    apply s2 middle = Ok out /\
    apply (s1 ++ s2) image = Ok out.
Proof.
  exists (applied s1 image), (applied s2 (applied s1 image)).
  rewrite !apply_applied, applied_app. auto.
Qed.

Lemma odd_turns_cons (t : T) (s : tuple) :
  odd_turns (t :: s) = xorb (quarter_turn t) (odd_turns s).
Proof.
  unfold odd_turns. cbn [filter].
  destruct (quarter_turn t); cbn [length xorb]; [|reflexivity].
  rewrite Nat.odd_succ, <- Nat.negb_odd. reflexivity.
Qed.

Lemma applied_size (s : tuple) (image : PIL.Image) :
  PIL.width (applied s image) =
    (if odd_turns s then PIL.height image else PIL.width image) /\
  PIL.height (applied s image) =
    (if odd_turns s then PIL.width image else PIL.height image).
Proof.
  revert image. induction s as [|t s IH]; intros image; [split; reflexivity|].
  change (applied (t :: s) image) with (applied s (transposed t image)).
  rewrite odd_turns_cons. destruct (IH (transposed t image)) as [Hw Hh].
  rewrite Hw, Hh.
  destruct t; cbn [quarter_turn xorb]; destruct (odd_turns s);
    split; reflexivity.
Qed.

(** X15. [apply] keeps the size of the image when the sequence holds an even
    number of rotations by 90 degrees, and swaps width and height when the
    number is odd. *)
Theorem apply_size (s : tuple) (image : PIL.Image) :
  exists out : PIL.Image,
    apply s image = Ok out /\
    PIL.width out =
      (if odd_turns s then PIL.height image else PIL.width image) /\
    PIL.height out =
      (if odd_turns s then PIL.width image else PIL.height image).
Proof.
  exists (applied s image). split; [apply apply_applied|apply applied_size].
Qed.

(** ** The window *)

Lemma T_getitem_name (t : T) : T_getitem (name t) = Ok t.
Proof. destruct t; reflexivity. Qed.

Lemma members_names (s : tuple) : members (map name s) = Ok s.
Proof.
  induction s as [|t s IH]; [reflexivity|].
  cbn [map members]. rewrite T_getitem_name. cbn [bind].
  rewrite IH. reflexivity.
Qed.

Section WindowInvariant.

Variable original_image : PIL.Image.

Lemma initial_consistent :
  consistent original_image [] (gui.initial original_image).
Proof. exists []. repeat split. Qed.

Lemma reset_consistent (w : gui.window) :
  consistent original_image [] (gui.reset_transformations original_image w).
Proof. exists []. repeat split. Qed.

Lemma add_transformation_consistent (t : T) (s : tuple) (w : gui.window) :
  consistent original_image s w ->
  exists w', gui.add_transformation original_image t w = Ok w' /\
             consistent original_image (s ++ [t]) w'.
Proof.
  intros (out & _ & Hall & _).
  destruct (reduce_agree (s ++ [t])) as (out' & Hred & _ & _).
  exists (gui.mkWindow (map name (s ++ [t])) (map name out')
                       (applied (s ++ [t]) original_image)
                       (applied out' original_image)).
  split.
  - unfold gui.add_transformation, gui.apply_transformations.
    cbn [gui.all_trans gui.reduced_trans gui.all_image_widget
         gui.reduced_image_widget].
    rewrite Hall.
    replace (map name s ++ [name t]) with (map name (s ++ [t]))
      by (rewrite map_app; reflexivity).
    rewrite members_names. cbn [bind]. rewrite Hred. cbn [bind].
    rewrite apply_applied. cbn [bind].
    unfold gui.set_all_image.
    cbn [gui.all_trans gui.reduced_trans gui.all_image_widget
         gui.reduced_image_widget].
    rewrite members_names. cbn [bind]. rewrite apply_applied. reflexivity.
  - exists out'. repeat split. exact Hred.
Qed.

Lemma mainloop_consistent (events : list gui.event) :
  forall (s : tuple) (w : gui.window),
    consistent original_image s w ->
    exists w', gui.mainloop original_image events w = Ok w' /\
               consistent original_image (gui.pressed_from s events) w'.
Proof.
  induction events as [|e events IH]; intros s w Hw.
  - exists w. split; [reflexivity|exact Hw].
  - cbn [gui.mainloop].
    destruct e; cbn [gui.command gui.pressed_from bind];
      try (apply IH, reset_consistent);
      match goal with
      | |- context [gui.add_transformation _ ?t _] =>
          destruct (add_transformation_consistent t s w Hw) as (w1 & -> & H1)
      end;
      cbn [bind]; apply IH, H1.
Qed.

End WindowInvariant.

(** On a call stack without bound, no command of the window raises,
    whatever buttons are pressed; [mainloop_limited_shows] is the statement
    under the recursion limit.
    After the events, the first list box holds the names of the
    transformations pressed since the last reset, the second list box the
    names of the sequence that [reduce] returns for them, and the two labels
    show the original image transformed by the one and by the other. *)
Theorem mainloop_shows (original_image : PIL.Image)
        (events : list gui.event) :
  exists (w : gui.window) (reduced : tuple),
    gui.mainloop original_image events (gui.initial original_image) = Ok w /\
    reduce (gui.pressed events) = Ok reduced /\
    gui.all_trans w = map name (gui.pressed events) /\
    gui.reduced_trans w = map name reduced /\
    apply (gui.pressed events) original_image = Ok (gui.all_image_widget w) /\
    apply reduced original_image = Ok (gui.reduced_image_widget w).
Proof.
  destruct (mainloop_consistent original_image events []
              (gui.initial original_image)
              (initial_consistent original_image))
    as (w & Hrun & out & Hred & Hall & Hredl & Hai & Hri).
  exists w, out. rewrite Hai, Hri.
  repeat split; try assumption; apply apply_applied.
Qed.

(** X17. After every session the two labels of the window show the same
    image, and the second list box has at most two entries and no more
    entries than the first. *)
Theorem mainloop_same_images (original_image : PIL.Image)
        (events : list gui.event) :
  exists w : gui.window,
    gui.mainloop original_image events (gui.initial original_image) = Ok w /\
    image_eq (gui.reduced_image_widget w) (gui.all_image_widget w) /\
    same (gui.reduced_image_widget w) (gui.all_image_widget w) = true /\
    length (gui.reduced_trans w) <= 2 /\
    length (gui.reduced_trans w) <= length (gui.all_trans w).
Proof.
  destruct (mainloop_consistent original_image events []
              (gui.initial original_image)
              (initial_consistent original_image))
    as (w & Hrun & out & Hred & Hall & Hredl & Hai & Hri).
  exists w. split; [exact Hrun|].
  destruct (reduce_agree (gui.pressed_from [] events))
    as (out' & Hred' & _ & Hagree).
  assert (out' = out) by congruence. subst out'.
  rewrite Hai, Hri, Hall, Hredl, !length_map.
  split; [apply agree_image_eq, Hagree|].
  split; [apply agree_same, Hagree|].
  split; [|apply reduce_not_longer, Hred].
  destruct (reduce_steps (gui.pressed_from [] events))
    as (rep & rich & _ & Hc & Hrich & Hred2).
  destruct (rewrite_to_rich_form_canonical rep Hc) as (rich' & Hrich' & Hl & _).
  assert (rich' = out) by congruence. subst. exact Hl.
Qed.

(** ** The recursion limit *)

(** Under the limit, [reduce_base_form] returns what it returns on a call
    stack without bound when its calls fit, and raises [RecursionError]
    when they do not. *)
Lemma reduce_base_form_limited_spec (frames : nat) :
  forall s : tuple,
    reduce_base_form_limited frames s =
    if length (lookups s) <=? frames then reduce_base_form s
    else Raise RecursionError.
Proof.
  induction frames as [|k IH]; intros s.
  - pose proof (lookups_bound s) as Hb. cbn [reduce_base_form_limited].
    destruct (Nat.leb_spec (length (lookups s)) 0); [lia|reflexivity].
  - cbn [reduce_base_form_limited].
    destruct (Nat.ltb_spec (length s) 5) as [Hshort|Hlong].
    + rewrite lookups_short, reduce_base_form_short by exact Hshort.
      reflexivity.
    + destruct (representative (firstn 4 s)) as [| m |rep] eqn:E.
      * rewrite lookups_none, reduce_base_form_none by assumption.
        reflexivity.
      * exfalso. eapply representative_in_not_str. exact E.
      * cbn [add bind]. rewrite IH.
        rewrite (lookups_step s rep Hlong E).
        rewrite (reduce_base_form_step s rep Hlong E). reflexivity.
Qed.

Lemma reduce_limited_spec (frames : nat) (s : tuple) :
  reduce_limited frames s =
  if length (lookups (flat_map expansion s)) <=? frames then reduce s
  else Raise RecursionError.
Proof.
  unfold reduce_limited, reduce. rewrite rewrite_to_base_form_spec.
  cbn [bind]. rewrite reduce_base_form_limited_spec.
  destruct (length (lookups (flat_map expansion s)) <=? frames); reflexivity.
Qed.

(** A sequence whose base form needs no more calls than the limit leaves. *)
Lemma reduce_limited_fits (frames : nat) (s : tuple) :
  1 <= frames -> 3 * length s <= frames + 3 ->
  reduce_limited frames s = reduce s.
Proof.
  intros Hf Hs. rewrite reduce_limited_spec.
  pose proof (lookups_bound (flat_map expansion s)) as Hb.
  pose proof (flat_map_expansion_length s) as Hl.
  destruct (Nat.leb_spec (length (lookups (flat_map expansion s))) frames);
    [reflexivity|lia].
Qed.

(** C4, on the code.  [reduce] is recursive through [reduce_base_form], one
    nested call for each window of four transformations, and the module does
    not raise the recursion limit of the interpreter.  Under the limit,
    [reduce] returns what it returns on a call stack without bound exactly
    when the calls of [reduce_base_form] on the base form fit; otherwise it
    raises [RecursionError].  The sequence of 1201 times [FLIP_LEFT_RIGHT] is
    well formed and needs 1201 nested calls: with room for them [reduce]
    returns [(FLIP_LEFT_RIGHT,)], and under the default limit of 1000 it
    raises [RecursionError]. *)
Theorem reduce_recursion_limit :
  (forall (frames : nat) (s : tuple),
      reduce_limited frames s =
      if length (lookups (flat_map expansion s)) <=? frames then reduce s
      else Raise RecursionError) /\
  reduce_limited 1201 (repeat FLIP_LEFT_RIGHT 1201) = Ok [FLIP_LEFT_RIGHT] /\
  reduce_limited 1200 (repeat FLIP_LEFT_RIGHT 1201) = Raise RecursionError /\
  reduce_limited default_recursion_limit (repeat FLIP_LEFT_RIGHT 1201) =
  Raise RecursionError.
Proof.
  split; [exact reduce_limited_spec|].
  repeat split; vm_compute; reflexivity.
Qed.

(** A sequence for which [reduce] raises [RecursionError] under a limit
    raises it under every lower limit. *)
Lemma reduce_limited_fewer_frames (frames frames' : nat) (s : tuple) :
  frames' <= frames ->
  reduce_limited frames s = Raise RecursionError ->
  reduce_limited frames' s = Raise RecursionError.
Proof.
  intros Hle. rewrite !reduce_limited_spec.
  destruct (reduce_steps s) as (rep & rich & _ & _ & _ & Hred).
  destruct (Nat.leb_spec (length (lookups (flat_map expansion s))) frames);
    [congruence|].
  destruct (Nat.leb_spec (length (lookups (flat_map expansion s))) frames');
    [lia|reflexivity].
Qed.

(** ** The window under the recursion limit *)

Lemma pressed_from_cons (acc : tuple) (e : gui.event)
      (events : list gui.event) :
  gui.pressed_from acc (e :: events) =
  gui.pressed_from (gui.pressed_from acc [e]) events.
Proof. destruct e; reflexivity. Qed.

Lemma longest_from_start (acc : tuple) (events : list gui.event) :
  length acc <= gui_limited.longest_from acc events.
Proof. destruct events; cbn [gui_limited.longest_from]; lia. Qed.

Lemma longest_from_end (events : list gui.event) :
  forall acc : tuple,
    length (gui.pressed_from acc events) <=
    gui_limited.longest_from acc events.
Proof.
  induction events as [|e events IH]; intros acc; [simpl; lia|].
  rewrite pressed_from_cons. cbn [gui_limited.longest_from].
  specialize (IH (gui.pressed_from acc [e])). lia.
Qed.

Section LimitedWindowInvariant.

Variable original_image : PIL.Image.
Variable frames : nat.
Hypothesis frames_positive : 1 <= frames.

Lemma add_transformation_limited_consistent
      (t : T) (s : tuple) (w : gui.window) :
  3 * length (s ++ [t]) <= frames + 3 ->
  consistent original_image s w ->
  exists w',
    gui_limited.add_transformation original_image frames t w = (w', None) /\
    consistent original_image (s ++ [t]) w'.
Proof.
  intros Hfit (out & _ & Hall & _).
  destruct (reduce_agree (s ++ [t])) as (out' & Hred & _ & _).
  exists (gui.mkWindow (map name (s ++ [t])) (map name out')
                       (applied (s ++ [t]) original_image)
                       (applied out' original_image)).
  split.
  - unfold gui_limited.add_transformation, gui.apply_transformations.
    cbn [gui.all_trans gui.reduced_trans gui.all_image_widget
         gui.reduced_image_widget].
    rewrite Hall.
    replace (map name s ++ [name t]) with (map name (s ++ [t]))
      by (rewrite map_app; reflexivity).
    rewrite members_names.
    rewrite (reduce_limited_fits frames (s ++ [t]) frames_positive Hfit).
    rewrite Hred. cbn [bind]. rewrite apply_applied. cbn [bind].
    unfold gui.set_all_image.
    cbn [gui.all_trans gui.reduced_trans gui.all_image_widget
         gui.reduced_image_widget].
    rewrite members_names. cbn [bind]. rewrite apply_applied. reflexivity.
  - exists out'. repeat split. exact Hred.
Qed.

Lemma mainloop_limited_consistent (events : list gui.event) :
  forall (s : tuple) (w : gui.window),
    consistent original_image s w ->
    3 * gui_limited.longest_from s events <= frames + 3 ->
    exists w',
      gui_limited.mainloop original_image frames events w = (w', []) /\
      consistent original_image (gui.pressed_from s events) w'.
Proof.
  induction events as [|e events IH]; intros s w Hw Hfit.
  - exists w. split; [reflexivity|exact Hw].
  - rewrite pressed_from_cons. cbn [gui_limited.longest_from] in Hfit.
    pose proof (longest_from_start (gui.pressed_from s [e]) events) as Hs.
    assert (Hrest : 3 * gui_limited.longest_from (gui.pressed_from s [e])
                                                 events <= frames + 3) by lia.
    assert (Hstep : exists w1,
               gui_limited.command original_image frames e w = (w1, None) /\
               consistent original_image (gui.pressed_from s [e]) w1).
    { destruct e; cbn [gui_limited.command gui.pressed_from] in *;
        try (eexists; split; [reflexivity|apply reset_consistent]);
        apply add_transformation_limited_consistent;
        solve [assumption | lia]. }
    destruct Hstep as (w1 & Hcmd & H1).
    destruct (IH _ w1 H1 Hrest) as (w' & Hrun & H').
    exists w'. split; [|exact H'].
    cbn [gui_limited.mainloop]. rewrite Hcmd, Hrun. reflexivity.
Qed.

End LimitedWindowInvariant.

(** X16.  Let the recursion limit leave room for [frames] nested calls of
    [reduce_base_form] inside a command, and let the first list box never
    hold more than [(frames + 3) / 3] names during a session.  Then no
    command of the session raises; after it, the first list box holds the
    names of the transformations pressed since the last reset, the second
    list box the names of the sequence that [reduce] returns for them, and
    the two labels show the original image transformed by the one and by
    the other. *)
Theorem mainloop_limited_shows (original_image : PIL.Image) (frames : nat)
        (events : list gui.event)
        (Hframes : 1 <= frames)
        (Hfit : 3 * gui_limited.longest events <= frames + 3) :
  exists (w : gui.window) (reduced : tuple),
    gui_limited.mainloop original_image frames events
                         (gui.initial original_image) = (w, []) /\
    reduce_limited frames (gui.pressed events) = Ok reduced /\
    gui.all_trans w = map name (gui.pressed events) /\
    gui.reduced_trans w = map name reduced /\
    apply (gui.pressed events) original_image = Ok (gui.all_image_widget w) /\
    apply reduced original_image = Ok (gui.reduced_image_widget w).
Proof.
  destruct (mainloop_limited_consistent original_image frames Hframes events
              [] (gui.initial original_image)
              (initial_consistent original_image) Hfit)
    as (w & Hrun & out & Hred & Hall & Hredl & Hai & Hri).
  exists w, out. rewrite Hai, Hri.
  split; [exact Hrun|]. split.
  - unfold gui.pressed. rewrite reduce_limited_fits; try assumption.
    pose proof (longest_from_end events []) as Hend.
    unfold gui_limited.longest in Hfit. lia.
  - repeat split; try assumption; apply apply_applied.
Qed.

Lemma mainloop_limited_shows_witness :
  1 <= 997 /\
  3 * gui_limited.longest
        [gui.FlipLeftRightButton; gui.RotateLeftButton; gui.ResetButton;
         gui.FlipTopBottomButton] <= 997 + 3 /\
  exists (w : gui.window) (reduced : tuple),
    gui_limited.mainloop probe 997
        [gui.FlipLeftRightButton; gui.RotateLeftButton; gui.ResetButton;
         gui.FlipTopBottomButton] (gui.initial probe) = (w, []) /\
    reduce_limited 997
        (gui.pressed [gui.FlipLeftRightButton; gui.RotateLeftButton;
                      gui.ResetButton; gui.FlipTopBottomButton]) =
      Ok reduced /\
    gui.all_trans w =
      map name (gui.pressed [gui.FlipLeftRightButton; gui.RotateLeftButton;
                             gui.ResetButton; gui.FlipTopBottomButton]) /\
    gui.reduced_trans w = map name reduced /\
    apply (gui.pressed [gui.FlipLeftRightButton; gui.RotateLeftButton;
                        gui.ResetButton; gui.FlipTopBottomButton]) probe =
      Ok (gui.all_image_widget w) /\
    apply reduced probe = Ok (gui.reduced_image_widget w).
Proof.
  assert (H1 : 1 <= 997) by lia.
  assert (H2 : 3 * gui_limited.longest
                     [gui.FlipLeftRightButton; gui.RotateLeftButton;
                      gui.ResetButton; gui.FlipTopBottomButton] <= 997 + 3)
    by (vm_compute; lia).
  split; [exact H1|]. split; [exact H2|].
  apply (mainloop_limited_shows probe 997
           [gui.FlipLeftRightButton; gui.RotateLeftButton; gui.ResetButton;
            gui.FlipTopBottomButton] H1 H2).
Defined.
